(** * Gematria engine of the Tanakh gematria browser

    A shallow embedding of [torahcalc_methods.py] (letter tables, temurah
    ciphers, the twenty additive methods) and of the driver of
    [precompute_tanakh.py], with the properties the specification states
    about them.

    Conventions.
    - A Python [str] is a list of code points ([N]); a Python [int] is a [Z].
    - A [dict] is a [gmap]; a dict literal and the loops that fill a dict are
      left folds of insertions, so a later assignment to a key wins.
    - [d.get(k, v)] is [default v (d !! k)]; [d[k]] raises [KeyError] on a
      missing key and is modelled in the [result] monad where it is used
      inside a method.
    - What [json.load] returns is a [json] value of any shape; the
      operations the driver applies to it raise as Python does on a value of
      the wrong type.
    - The operating system is an environment that decides which calls fail;
      a run leaves the trace of the calls it made, each with its outcome. *)

From stdpp Require Import gmap list strings pretty.
From Stdlib Require Import ZArith NArith Lia.

Local Open Scope Z_scope.

(** ** Python values *)

(** The class of a raised exception; [OSError] stands for its subclasses
    too. *)
Inductive exn :=
| KeyError | IndexError | ValueError | TypeError | AttributeError
| UnicodeEncodeError | JSONDecodeError | OSError.

Inductive result (A : Type) :=
| Ok (a : A)
| Raise (e : exn).
Arguments Ok {A} a.
Arguments Raise {A} e.

(** Sequencing: an exception raised by the first computation propagates. *)
#[global] Instance result_ret : MRet result := fun _ a => Ok a.
#[global] Instance result_bind : MBind result := fun _ _ k r =>
  match r with
  | Ok a => k a
  | Raise e => Raise e
  end.

(** A loop [for x in l: ...] over an accumulator, whose body may raise. *)
Fixpoint foldl_result {A B} (f : A → B → result A) (a : A) (l : list B)
  : result A :=
  match l with
  | [] => Ok a
  | x :: l' => a' ← f a x; foldl_result f a' l'
  end.

(** A dict literal [{k1: v1, k2: v2, ...}]: keys are assigned left to right. *)
Definition py_dict {V} (items : list (N * V)) : gmap N V :=
  foldl (fun d kv => <[kv.1 := kv.2]> d) ∅ items.

(** ** The letters (code points U+05D0 .. U+05EA) *)

Module Letter.
Definition alef : N := 0x5D0.
Definition bet : N := 0x5D1.
Definition gimel : N := 0x5D2.
Definition dalet : N := 0x5D3.
Definition he : N := 0x5D4.
Definition vav : N := 0x5D5.
Definition zayin : N := 0x5D6.
Definition het : N := 0x5D7.
Definition tet : N := 0x5D8.
Definition yod : N := 0x5D9.
Definition final_kaf : N := 0x5DA.
Definition kaf : N := 0x5DB.
Definition lamed : N := 0x5DC.
Definition final_mem : N := 0x5DD.
Definition mem : N := 0x5DE.
Definition final_nun : N := 0x5DF.
Definition nun : N := 0x5E0.
Definition samekh : N := 0x5E1.
Definition ayin : N := 0x5E2.
Definition final_pe : N := 0x5E3.
Definition pe : N := 0x5E4.
Definition final_tsadi : N := 0x5E5.
Definition tsadi : N := 0x5E6.
Definition qof : N := 0x5E7.
Definition resh : N := 0x5E8.
Definition shin : N := 0x5E9.
Definition tav : N := 0x5EA.
End Letter.
Import Letter.

(** ** Basic lookup tables *)

Definition _HECHRACHI : gmap N Z := py_dict
  [ (alef, 1); (bet, 2); (gimel, 3); (dalet, 4); (he, 5); (vav, 6);
    (zayin, 7); (het, 8); (tet, 9);
    (yod, 10); (kaf, 20); (final_kaf, 20); (lamed, 30); (mem, 40);
    (final_mem, 40); (nun, 50); (final_nun, 50);
    (samekh, 60); (ayin, 70); (pe, 80); (final_pe, 80); (tsadi, 90);
    (final_tsadi, 90); (qof, 100); (resh, 200);
    (shin, 300); (tav, 400) ].

Definition _GADOL : gmap N Z := py_dict
  [ (alef, 1); (bet, 2); (gimel, 3); (dalet, 4); (he, 5); (vav, 6);
    (zayin, 7); (het, 8); (tet, 9);
    (yod, 10); (kaf, 20); (lamed, 30); (mem, 40); (nun, 50); (samekh, 60);
    (ayin, 70); (pe, 80);
    (tsadi, 90); (qof, 100); (resh, 200); (shin, 300); (tav, 400);
    (final_kaf, 500); (final_mem, 600); (final_nun, 700); (final_pe, 800);
    (final_tsadi, 900) ].

Definition _SIDURI : gmap N Z := py_dict
  [ (alef, 1); (bet, 2); (gimel, 3); (dalet, 4); (he, 5); (vav, 6);
    (zayin, 7); (het, 8); (tet, 9);
    (yod, 10); (kaf, 11); (final_kaf, 11); (lamed, 12); (mem, 13);
    (final_mem, 13); (nun, 14); (final_nun, 14);
    (samekh, 15); (ayin, 16); (pe, 17); (final_pe, 17); (tsadi, 18);
    (final_tsadi, 18); (qof, 19); (resh, 20);
    (shin, 21); (tav, 22) ].

Definition _KATAN : gmap N Z := py_dict
  [ (alef, 1); (bet, 2); (gimel, 3); (dalet, 4); (he, 5); (vav, 6);
    (zayin, 7); (het, 8); (tet, 9);
    (yod, 1); (kaf, 2); (final_kaf, 2); (lamed, 3); (mem, 4);
    (final_mem, 4); (nun, 5); (final_nun, 5);
    (samekh, 6); (ayin, 7); (pe, 8); (final_pe, 8); (tsadi, 9);
    (final_tsadi, 9); (qof, 1); (resh, 2);
    (shin, 3); (tav, 4) ].

Definition _MISPARI : gmap N Z := py_dict
  [ (alef, 13); (bet, 760); (gimel, 13); (dalet, 434); (he, 38); (vav, 42);
    (zayin, 67);
    (het, 68); (tet, 419); (yod, 570); (kaf, 100); (final_kaf, 100);
    (lamed, 74); (mem, 80);
    (final_mem, 80); (nun, 106); (final_nun, 106); (samekh, 60); (ayin, 130);
    (pe, 81); (final_pe, 81);
    (tsadi, 104); (final_tsadi, 104); (qof, 186); (resh, 501); (shin, 1083);
    (tav, 720) ].

Definition DEFAULT_LETTER_NAMES : gmap N (list N) := py_dict
  [ (alef, [alef; lamed; final_pe]);
    (bet, [bet; yod; tav]);
    (gimel, [gimel; yod; mem; lamed]);
    (dalet, [dalet; lamed; tav]);
    (he, [he; alef]);
    (vav, [vav; vav]);
    (zayin, [zayin; yod; final_nun]);
    (het, [het; yod; tav]);
    (tet, [tet; yod; tav]);
    (yod, [yod; vav; dalet]);
    (kaf, [kaf; final_pe]); (final_kaf, [kaf; final_pe]);
    (lamed, [lamed; mem; dalet]);
    (mem, [mem; final_mem]); (final_mem, [mem; final_mem]);
    (nun, [nun; vav; final_nun]); (final_nun, [nun; vav; final_nun]);
    (samekh, [samekh; mem; final_kaf]);
    (ayin, [ayin; yod; final_nun]);
    (pe, [pe; alef]); (final_pe, [pe; alef]);
    (tsadi, [tsadi; dalet; yod]); (final_tsadi, [tsadi; dalet; yod]);
    (qof, [qof; vav; final_pe]);
    (resh, [resh; yod; shin]);
    (shin, [shin; final_nun]);
    (tav, [tav; vav]) ].

Definition _ORDERED_LETTERS : list N :=
  [ alef; bet; gimel; dalet; he; vav; zayin; het; tet; yod; kaf; lamed; mem;
    nun; samekh; ayin; pe; tsadi; qof; resh; shin; tav ].

(** [_CUM_SUM_HECHRACHI]: the module-level loop threads [_running] and the
    dict being filled.  [_HECHRACHI[ch]] is a subscript; every letter of
    [_ORDERED_LETTERS] is a key ([ordered_letters_in_HECHRACHI] below), so the
    total lookup never takes its default. *)
Definition cum_sum_step (st : Z * gmap N Z) (ch : N) : Z * gmap N Z :=
  let running := st.1 + _HECHRACHI !!! ch in
  (running, <[ch := running]> st.2).

Definition _CUM_SUM_HECHRACHI : gmap N Z :=
  (foldl cum_sum_step (0, ∅) _ORDERED_LETTERS).2.

(** ** Helpers *)

(** [''.join(c for c in s if c in _HECHRACHI)] *)
Definition in_table {V} (d : gmap N V) (c : N) : bool :=
  bool_decide (is_Some (d !! c)).

Definition _strip_non_hebrew (s : list N) : list N :=
  List.filter (in_table _HECHRACHI) s.

(** The loop of [_apply_table], with [total] as the accumulator. *)
Definition _apply_table (s : list N) (table : gmap N Z) : Z :=
  foldl (fun total c => total + default 0 (table !! c)) 0 s.

(** ** Public methods *)

Definition mispar_hechrachi (s : list N) : Z :=
  _apply_table (_strip_non_hebrew s) _HECHRACHI.

Definition mispar_gadol (s : list N) : Z :=
  _apply_table (_strip_non_hebrew s) _GADOL.

Definition mispar_siduri (s : list N) : Z :=
  _apply_table (_strip_non_hebrew s) _SIDURI.

Definition mispar_katan (s : list N) : Z :=
  _apply_table (_strip_non_hebrew s) _KATAN.

(** A subscript [d[k]]: [KeyError] when the key is missing. *)
Definition subscript {V} (d : gmap N V) (k : N) : result V :=
  match d !! k with
  | Some v => Ok v
  | None => Raise KeyError
  end.

(** [sum(f(c) for c in s)]: the items are produced and added left to right;
    an exception raised while producing an item ends the sum. *)
Fixpoint sum_gen (f : N → result Z) (s : list N) (acc : Z) : result Z :=
  match s with
  | [] => Ok acc
  | c :: s' => v ← f c; sum_gen f s' (acc + v)
  end.

Definition mispar_perati (s : list N) : result Z :=
  let s := _strip_non_hebrew s in
  sum_gen (fun c => v ← subscript _HECHRACHI c; Ok (v ^ 2)) s 0.

Definition mispar_meshulash (s : list N) : result Z :=
  let s := _strip_non_hebrew s in
  sum_gen (fun c => v ← subscript _HECHRACHI c; Ok (v ^ 3)) s 0.

(** The [if c in {...}: base = ... elif ...] chain that [mispar_kidmi] and
    [_transform] both spell out: a final form becomes its base letter, any
    other character is kept. *)
Definition final_to_base (c : N) : N :=
  if (c =? final_kaf)%N || (c =? kaf)%N then kaf
  else if (c =? final_mem)%N || (c =? mem)%N then mem
  else if (c =? final_nun)%N || (c =? nun)%N then nun
  else if (c =? final_pe)%N || (c =? pe)%N then pe
  else if (c =? final_tsadi)%N || (c =? tsadi)%N then tsadi
  else c.

Definition mispar_kidmi (s : list N) : Z :=
  foldl (fun total c =>
           let base := final_to_base c in
           total + default 0 (_CUM_SUM_HECHRACHI !! base))
        0 (_strip_non_hebrew s).

(** The loop state of [mispar_boneh] is the pair [(total, running)]. *)
Definition boneh_step (st : Z * Z) (c : N) : Z * Z :=
  let running := st.2 + default 0 (_HECHRACHI !! c) in
  (st.1 + running, running).

Definition mispar_boneh (s : list N) : Z :=
  (foldl boneh_step (0, 0) (_strip_non_hebrew s)).1.

Definition mispar_mispari (s : list N) : Z :=
  _apply_table (_strip_non_hebrew s) _MISPARI.

(** ** Letter substitutions (temurot) *)

(** A list subscript [l[i]]; every use below stays within range. *)
Definition item (l : list N) (i : nat) : N := l !!! i.

(** A slice [l[i:j]]. *)
Definition slice (l : list N) (i j : nat) : list N := take (j - i) (drop i l).

(** [enumerate(l)] *)
Definition enumerate (l : list N) : list (nat * N) := imap pair l.

Definition atbash_pairs : list (N * N) :=
  zip _ORDERED_LETTERS (reverse _ORDERED_LETTERS).

Definition _ATBASH_MAP : gmap N N :=
  foldl (fun m ab => <[ab.2 := ab.1]> (<[ab.1 := ab.2]> m)) ∅ atbash_pairs.

Definition _ALBAM_MAP : gmap N N :=
  foldl (fun m i =>
           let a := item _ORDERED_LETTERS i in
           let b := item _ORDERED_LETTERS (i + 11) in
           <[b := a]> (<[a := b]> m))
        ∅ (seq 0 11).

(** The inner loop shared by AchBi and AtBach:
    [for i, a in enumerate(group): b = group[::-1][i]; m[a] = b]. *)
Definition reverse_group (m : gmap N N) (group : list N) : gmap N N :=
  foldl (fun m ia => <[ia.2 := item (reverse group) ia.1]> m) m
        (enumerate group).

Definition first_half : list N := take 11 _ORDERED_LETTERS.
Definition second_half : list N := drop 11 _ORDERED_LETTERS.

Definition _ACHBI_MAP : gmap N N :=
  foldl reverse_group ∅ [first_half; second_half].

Definition _ATBACH_SEQ : list N :=
  [ alef; bet; gimel; dalet; he; vav; zayin; het; tet;
    yod; kaf; lamed; mem; nun; samekh; ayin; pe; tsadi;
    qof; resh; shin; tav; final_kaf; final_mem; final_nun; final_pe;
    final_tsadi ].

(** [range(0, 27, 9)] *)
Definition atbach_starts : list nat := [0; 9; 18]%nat.

Definition _ATBACH_MAP : gmap N N :=
  foldl (fun m i => reverse_group m (slice _ATBACH_SEQ i (i + 9)))
        ∅ atbach_starts.

Definition groups : list (list N) :=
  (fun i => slice _ATBACH_SEQ i (i + 9)) <$> atbach_starts.

(** [for a, b in zip(xs, ys): m[a] = b] *)
Definition assign_zip (m : gmap N N) (xs ys : list N) : gmap N N :=
  foldl (fun m ab => <[ab.1 := ab.2]> m) m (zip xs ys).

Definition _AYAK_MAP : gmap N N :=
  foldl (fun m ig =>
           let next_group :=
             groups !!! ((ig.1 + 1) `mod` length groups)%nat in
           assign_zip m ig.2 next_group)
        ∅ (imap pair groups).

Definition _ACHAS_SEQ : list N :=
  [ alef; bet; gimel; dalet; he; vav; zayin;
    het; tet; yod; kaf; lamed; mem; nun;
    samekh; ayin; pe; tsadi; qof; resh; shin; tav ].

Definition g1 : list N := slice _ACHAS_SEQ 0 7.
Definition g2 : list N := slice _ACHAS_SEQ 7 14.
Definition g3 : list N := drop 14 _ACHAS_SEQ.

Definition _ACHAS_BETA_MAP : gmap N N :=
  assign_zip (assign_zip (assign_zip ∅ g1 g2) g2 g3) g3 g1.

(** Avgad and Reverse Avgad are filled by one loop; its state is the pair of
    dicts. *)
Definition avgad_step (st : gmap N N * gmap N N) (ia : nat * N)
  : gmap N N * gmap N N :=
  let b := item _ORDERED_LETTERS
             ((ia.1 + 1) `mod` length _ORDERED_LETTERS)%nat in
  (<[ia.2 := b]> st.1, <[b := ia.2]> st.2).

Definition avgad_maps : gmap N N * gmap N N :=
  foldl avgad_step (∅, ∅) (enumerate _ORDERED_LETTERS).

Definition _AVGAD_MAP : gmap N N := avgad_maps.1.
Definition _REV_AVGAD_MAP : gmap N N := avgad_maps.2.

(** One step of [_transform]: normalise a final to its base, then
    [mapping.get(base, base)]. *)
Definition transform_char (mapping : gmap N N) (c : N) : N :=
  let base := final_to_base c in
  default base (mapping !! base).

Definition _transform (s : list N) (mapping : gmap N N) : list N :=
  transform_char mapping <$> s.

Definition atbash_value (s : list N) : Z :=
  mispar_hechrachi (_transform (_strip_non_hebrew s) _ATBASH_MAP).

Definition albam_value (s : list N) : Z :=
  mispar_hechrachi (_transform (_strip_non_hebrew s) _ALBAM_MAP).

Definition achbi_value (s : list N) : Z :=
  mispar_hechrachi (_transform (_strip_non_hebrew s) _ACHBI_MAP).

Definition atbach_value (s : list N) : Z :=
  let transformed := _transform (_strip_non_hebrew s) _ATBACH_MAP in
  mispar_gadol transformed.

Definition ayak_bachar_value (s : list N) : Z :=
  let transformed := _transform (_strip_non_hebrew s) _AYAK_MAP in
  mispar_gadol transformed.

Definition achas_beta_value (s : list N) : Z :=
  mispar_hechrachi (_transform (_strip_non_hebrew s) _ACHAS_BETA_MAP).

Definition avgad_value (s : list N) : Z :=
  mispar_hechrachi (_transform (_strip_non_hebrew s) _AVGAD_MAP).

Definition reverse_avgad_value (s : list N) : Z :=
  mispar_hechrachi (_transform (_strip_non_hebrew s) _REV_AVGAD_MAP).

(** ** Milui-dependent methods *)

(** [letter_names] defaults to [None], which selects
    [DEFAULT_LETTER_NAMES]. *)
Definition names_or_default (letter_names : option (gmap N (list N)))
  : gmap N (list N) :=
  match letter_names with
  | None => DEFAULT_LETTER_NAMES
  | Some t => t
  end.

Definition shemi_term (names : gmap N (list N)) (c : N) : Z :=
  let name := default [] (names !! c) in
  mispar_hechrachi name.

Definition mispar_shemi (s : list N) (letter_names : option (gmap N (list N)))
  : Z :=
  let letter_names := names_or_default letter_names in
  foldl (fun total c => total + shemi_term letter_names c)
        0 (_strip_non_hebrew s).

Definition neelam_term (names : gmap N (list N)) (c : N) : Z :=
  let name := default [] (names !! c) in
  let hidden := if (1 <? length name)%nat then drop 1 name else [] in
  mispar_hechrachi hidden.

Definition mispar_neelam (s : list N) (letter_names : option (gmap N (list N)))
  : Z :=
  let letter_names := names_or_default letter_names in
  foldl (fun total c => total + neelam_term letter_names c)
        0 (_strip_non_hebrew s).

(** [name[-1]]: [IndexError] on the empty string. *)
Definition last_item (name : list N) : result N :=
  match last name with
  | Some l => Ok l
  | None => Raise IndexError
  end.

(** [if name: total += mispar_hechrachi(name[-1])] *)
Definition ofanim_step (names : gmap N (list N)) (total : Z) (c : N)
  : result Z :=
  let name := default [] (names !! c) in
  if bool_decide (name ≠ [])
  then l ← last_item name; Ok (total + mispar_hechrachi [l])
  else Ok total.

Definition ofanim_value (s : list N) (letter_names : option (gmap N (list N)))
  : result Z :=
  let letter_names := names_or_default letter_names in
  foldl_result (ofanim_step letter_names) 0 (_strip_non_hebrew s).

(** ** The catalog *)

(** A catalog entry is a Python function of one parameter, or one with the
    optional [letter_names] parameter. *)
Inductive method :=
| Plain (f : list N → result Z)
| Named (f : list N → option (gmap N (list N)) → result Z).

(** A function whose body cannot raise. *)
Definition pure1 (f : list N → Z) : method := Plain (fun s => Ok (f s)).
Definition pure2 (f : list N → option (gmap N (list N)) → Z) : method :=
  Named (fun s t => Ok (f s t)).

(** [func(s)] *)
Definition call1 (m : method) (s : list N) : result Z :=
  match m with
  | Plain f => f s
  | Named f => f s None
  end.

(** [func(s, letter_names)]: a one-parameter function rejects the second
    argument. *)
Definition call2 (m : method) (s : list N) (t : gmap N (list N)) : result Z :=
  match m with
  | Plain _ => Raise TypeError
  | Named f => f s (Some t)
  end.

Definition ADDITIVE_METHODS : list (string * method) :=
  [ ("hechrachi", pure1 mispar_hechrachi);
    ("gadol", pure1 mispar_gadol);
    ("siduri", pure1 mispar_siduri);
    ("katan", pure1 mispar_katan);
    ("perati", Plain mispar_perati);
    ("meshulash", Plain mispar_meshulash);
    ("kidmi", pure1 mispar_kidmi);
    ("boneh", pure1 mispar_boneh);
    ("mispari", pure1 mispar_mispari);
    ("shemi", pure2 mispar_shemi);
    ("neelam", pure2 mispar_neelam);
    ("ofanim", Named ofanim_value);
    ("atbash", pure1 atbash_value);
    ("albam", pure1 albam_value);
    ("achbi", pure1 achbi_value);
    ("atbach", pure1 atbach_value);
    ("ayak_bachar", pure1 ayak_bachar_value);
    ("achas_beta", pure1 achas_beta_value);
    ("avgad", pure1 avgad_value);
    ("reverse_avgad", pure1 reverse_avgad_value) ]%string.

Definition bereshit : list N := [bet; resh; alef; shin; yod; tav].

(** * precompute_tanakh.py *)

(** [re.sub(r'[\u0591-\u05C7]', '', s)] *)
Definition remove_diacritics (s : list N) : list N :=
  List.filter (fun c => negb ((0x591 <=? c) && (c <=? 0x5C7))%N) s.

(** [''.join(c for c in s if '\u05d0' <= c <= '\u05ea')] *)
Definition letters_only (s : list N) : list N :=
  List.filter (fun c => (0x5D0 <=? c) && (c <=? 0x5EA))%N s.

(** ** Records written to a chapter file *)

Record token_entry := TokenEntry {
  t : list N;
  v : gmap string Z
}.

Record verse_entry := VerseEntry {
  text : list N;
  text_letters : list N;
  tokens : list (list N);
  sum_of_tokens : gmap string Z;
  token_values : list token_entry
}.

(** The dumped object [{title: {str(chapter_idx): chapter_data}}];
    [chapter_data] is keyed by the verse number. *)
Record chapter_file := ChapterFile {
  cf_title : list N;
  cf_chapter : nat;
  cf_verses : gmap nat verse_entry
}.

(** ** Values read from a source file *)

(** An ASCII literal as a Python string. *)
Definition ascii_str (s : string) : list N :=
  Ascii.N_of_ascii <$> String.list_ascii_of_string s.

(** A value as [json.load] returns it: [None], a [bool], an [int], a
    [float] (kept by its bits; nothing here computes with one), a [str], a
    [list], or a [dict] given by its items in order, the keys distinct. *)
#[warnings="-register-all"] Inductive json :=
| JNull
| JBool (b : bool)
| JInt (n : Z)
| JFloat (bits : N)
| JStr (s : list N)
| JList (items : list json)
| JObj (members : list (list N * json)).

(** [data.get(key, dflt)]: only a [dict] has the method. *)
Definition get (data : json) (key : list N) (dflt : json) : result json :=
  match data with
  | JObj members =>
      Ok (default dflt
            (snd <$> List.find (fun kv => bool_decide (kv.1 = key)) members))
  | _ => Raise AttributeError
  end.


(** What [enumerate(x, start=1)] iterates over: the items of a [list], the
    characters of a [str], the keys of a [dict]; any other value is not
    iterable. *)
Definition iterate (x : json) : result (list json) :=
  match x with
  | JList items => Ok items
  | JStr s => Ok ((fun c => JStr [c]) <$> s)
  | JObj members => Ok ((fun kv => JStr kv.1) <$> members)
  | _ => Raise TypeError
  end.

(** The string argument of [re.sub]: on any other value it raises
    [TypeError]. *)
Definition as_str (x : json) : result (list N) :=
  match x with
  | JStr s => Ok s
  | _ => Raise TypeError
  end.

(** What [open(book_json_path)] and [json.load] give for a source file: the
    value read, or the exception raised when the file cannot be opened or
    does not hold JSON. *)
Definition book : Type := result json.






(** ** The operating system

    The calls the script makes on its environment:
    [os.makedirs(path, exist_ok=True)];
    [open(path, 'w', encoding='utf-8')];
    [json.dump(content, f_out, ensure_ascii=False, indent=2)] into the file
    opened at [path], with the closing of the file; [print(line)]. *)
Inductive os_call :=
| Makedirs (path : list N)
| Open (path : list N)
| Dump (path : list N) (content : chapter_file)
| Print (line : list N).

(** A run leaves the [trace] of the calls it made, each with the exception
    it raised, if any.  The environment [os_fails] decides, from the trace
    so far, whether a call fails and how.  A dump that raised leaves at its
    path whatever part of the text had been written. *)
Record world := World {
  trace : list (os_call * option exn);
  os_fails : list (os_call * option exn) → os_call → option exn
}.

Definition io (A : Type) : Type := world → world * result A.

#[global] Instance io_ret : MRet io := fun _ a w => (w, Ok a).
#[global] Instance io_bind : MBind io := fun _ _ k m w =>
  match m w with
  | (w', Ok a) => k a w'
  | (w', Raise e) => (w', Raise e)
  end.

Definition raise {A} (e : exn) : io A := fun w => (w, Raise e).
Definition lift {A} (r : result A) : io A := fun w => (w, r).

(** A string the [utf-8] codec encodes: it holds no surrogate code point. *)
Definition encodable (s : list N) : bool :=
  forallb (fun c => negb ((0xD800 <=? c) && (c <=? 0xDFFF))%N) s.

Definition entry_encodable (e : verse_entry) : bool :=
  encodable (text e) && encodable (text_letters e)
  && forallb encodable (tokens e)
  && forallb (fun te => encodable (t te)) (token_values e).

(** The strings of a dumped object: the title and those of the verse
    entries; the other keys are decimal numbers and method names. *)
Definition file_encodable (c : chapter_file) : bool :=
  encodable (cf_title c)
  && forallb (fun kv => entry_encodable kv.2) (map_to_list (cf_verses c)).

(** The outcome of a call: the exception the environment makes it raise;
    otherwise, for a dump, [UnicodeEncodeError] when the file's codec
    cannot encode the text. *)
Definition outcome (w : world) (c : os_call) : option exn :=
  match os_fails w (trace w) c with
  | Some e => Some e
  | None =>
      match c with
      | Dump _ content =>
          if file_encodable content then None else Some UnicodeEncodeError
      | _ => None
      end
  end.

Definition perform (c : os_call) : io unit := fun w =>
  (World (trace w ++ [(c, outcome w c)]) (os_fails w),
   match outcome w c with
   | Some e => Raise e
   | None => Ok ()
   end).

(** [for x in xs: body(x)] in [io]: an exception leaves the loop. *)
Fixpoint for_each {A} (xs : list A) (body : A → io unit) : io unit :=
  match xs with
  | [] => mret ()
  | x :: xs' => _ ← body x; for_each xs' body
  end.

(** ** POSIX path helpers *)

Definition slash : N := 0x2F.
Definition dot : N := 0x2E.

(** [os.path.join(a, b)] *)
Definition path_join (a b : list N) : list N :=
  match b with
  | c :: _ => if (c =? slash)%N then b
              else match last a with
                   | None => b
                   | Some l => if (l =? slash)%N then a ++ b
                               else a ++ slash :: b
                   end
  | [] => match last a with
          | None => []
          | Some l => if (l =? slash)%N then a else a ++ [slash]
          end
  end.

(** [os.path.basename(p)]: what follows the last slash. *)
Fixpoint basename (p : list N) : list N :=
  match p with
  | [] => []
  | c :: p' => if bool_decide (slash ∈ p') then basename p'
               else if (c =? slash)%N then p' else p
  end.

(** [p.split('.')[0]] *)
Fixpoint before_dot (p : list N) : list N :=
  match p with
  | [] => []
  | c :: p' => if (c =? dot)%N then [] else c :: before_dot p'
  end.

(** ['.json'] *)
Definition dot_json : list N := [0x2E; 0x6A; 0x73; 0x6F; 0x6E]%N.

Section Driver.

(** The runtime's Unicode tables: the whitespace class shared by
    [str.strip] and the [\s] of [re], and [str.lower]. *)
Variable isspace : N → bool.
Variable lower : list N → list N.

Fixpoint lstrip (s : list N) : list N :=
  match s with
  | c :: s' => if isspace c then lstrip s' else s
  | [] => []
  end.

Definition strip (s : list N) : list N :=
  reverse (lstrip (reverse (lstrip s))).

(** A separator of [[\s\u05be]+]. *)
Definition is_sep (c : N) : bool := isspace c || (c =? 0x5BE)%N.

(** [re.split(r'[\s\u05be]+', s)]: [in_run] tells whether the previous
    character was a separator, so that a run of separators splits once. *)
Fixpoint re_split (s : list N) (in_run : bool) : list (list N) :=
  match s with
  | [] => [[]]
  | c :: s' =>
      if is_sep c then
        if in_run then re_split s' true else [] :: re_split s' true
      else
        match re_split s' false with
        | w :: ws => (c :: w) :: ws
        | [] => [[c]]
        end
  end.

Definition tokenize (verse : list N) : list (list N) :=
  let verse := List.filter (fun c => negb (c =? 0x5C3)%N) verse in
  let words := re_split (strip verse) false in
  List.filter (fun w => negb (bool_decide (w = []))) words.

(** [method_name in {'shemi', 'neelam', 'ofanim'}] *)
Definition takes_names (method_name : string) : bool :=
  bool_decide (method_name ∈ ["shemi"; "neelam"; "ofanim"]%string).

(** The loop over [ADDITIVE_METHODS.items()] for one token; its state is
    [(values, token_totals)]. *)
Definition method_step (letters_tok : list N)
    (st : gmap string Z * gmap string Z) (entry : string * method)
  : result (gmap string Z * gmap string Z) :=
  let '(method_name, func) := entry in
  val ← (if takes_names method_name
         then call2 func letters_tok DEFAULT_LETTER_NAMES
         else call1 func letters_tok);
  let values := <[method_name := val]> st.1 in
  match st.2 !! method_name with
  | Some tot => Ok (values, <[method_name := tot + val]> st.2)
  | None => Raise KeyError
  end.

(** The loop over the tokens of a verse; its state is
    [(token_entries, token_totals)]. *)
Definition token_step (st : list token_entry * gmap string Z)
    (tok : list N) : result (list token_entry * gmap string Z) :=
  let letters_tok := letters_only tok in
  '(values, token_totals) ←
    foldl_result (method_step letters_tok) (∅, st.2) ADDITIVE_METHODS;
  Ok (st.1 ++ [TokenEntry letters_tok values], token_totals).

(** [{method: 0 for method in ADDITIVE_METHODS.keys()}] *)
Definition zero_totals : gmap string Z :=
  foldl (fun d entry => <[entry.1 := 0]> d) ∅ ADDITIVE_METHODS.

Definition verse_record (verse : list N) : result verse_entry :=
  let original := verse in
  let cleaned := remove_diacritics verse in
  let letters := letters_only cleaned in
  let tokens := tokenize cleaned in
  '(token_entries, token_totals) ←
    foldl_result token_step ([], zero_totals) tokens;
  Ok (VerseEntry original letters (t <$> token_entries)
                 token_totals token_entries).

(** [enumerate(l, start=1)] *)
Definition enumerate1 {A} (l : list A) : list (nat * A) :=
  imap (fun i x => (S i, x)) l.

(** The verse loop on the verses of one chapter, all strings. *)
Definition chapter_record (verses : list (list N))
  : result (gmap nat verse_entry) :=
  foldl_result (fun chapter_data iv =>
                  e ← verse_record iv.2;
                  Ok (<[iv.1 := e]> chapter_data))
               ∅ (enumerate1 verses).

(** The verse loop as [precompute_book] runs it, on whatever the chapter
    holds: [remove_diacritics(verse)] raises on an item that is not a
    string. *)
Definition chapter_loop (verses : list json) : result (gmap nat verse_entry) :=
  foldl_result (fun chapter_data iv =>
                  verse ← as_str iv.2;
                  e ← verse_record verse;
                  Ok (<[iv.1 := e]> chapter_data))
               ∅ (enumerate1 verses).

(** [str(chapter_idx)] *)
Definition str_of_nat (n : nat) : list N := ascii_str (pretty n).

(** [precompute_book]; [loaded] is what [open] and [json.load] give for
    [book_json_path].  [os.path.join(out_root, title)] raises [TypeError]
    on a title that is not a string. *)
Definition precompute_book (book_json_path : list N) (loaded : book)
    (out_root : list N) : io unit :=
  data ← lift loaded;
  title ← lift (get data (ascii_str "title")
                    (JStr (before_dot (basename book_json_path))));
  text ← lift (get data (ascii_str "text") JNull);
  match text with
  | JList chapters =>
      match title with
      | JStr title =>
          let book_out_dir := path_join out_root title in
          _ ← perform (Makedirs book_out_dir);
          for_each (enumerate1 chapters) (fun iv =>
            verses ← lift (iterate iv.2);
            chapter_data ← lift (chapter_loop verses);
            let out_path :=
              path_join book_out_dir (str_of_nat iv.1 ++ dot_json) in
            _ ← perform (Open out_path);
            _ ← perform (Dump out_path (ChapterFile title iv.1 chapter_data));
            perform (Print (ascii_str "Wrote " ++ out_path)))
      | _ => raise TypeError
      end
  | _ => raise ValueError
  end.

(** The parsed command line: exactly one of [--input-file] and
    [--input-dir] is given.  A directory is its [os.listdir] listing, each
    name with what reading its file gives. *)
Inductive args :=
| InputFile (path : list N) (data : book) (out_dir : list N)
| InputDir (input_dir : list N) (listing : list (list N * book))
           (out_dir : list N).

(** [fname.lower().endswith('.json')] *)
Definition is_json_name (fname : list N) : bool :=
  bool_decide (dot_json `suffix_of` lower fname).

Definition main (a : args) : io unit :=
  match a with
  | InputFile path data out_dir => precompute_book path data out_dir
  | InputDir input_dir listing out_dir =>
      for_each listing (fun entry =>
        if is_json_name entry.1
        then precompute_book (path_join input_dir entry.1) entry.2 out_dir
        else mret ())
  end.

End Driver.


(** A whitespace class and a lowering that agree with the runtime on ASCII,
    for running the driver on concrete ASCII-named inputs. *)
Definition ascii_isspace (c : N) : bool :=
  ((9 <=? c) && (c <=? 13) || (28 <=? c) && (c <=? 32))%N.






(** The 27 code points of the Hebrew consonant block, base and final
    forms. *)
Definition hebrew (c : N) : Prop := (0x5D0 ≤ c ≤ 0x5EA)%N.

Definition hebrew_block : list N := N.of_nat <$> seq 0x5D0 27.

Definition nonneg_table (table : gmap N Z) : Prop :=
  map_Forall (fun _ x => 0 ≤ x) table.

(** The invariant of the loops that update [token_totals]: every method
    name is a key. *)
Definition totals_ready (totals : gmap string Z) : Prop :=
  dom totals = dom zero_totals.

(** Mispar Boneh as the specification words it: the sum, over the positions
    [i = 1..n] of the filtered letters, of the Hechrachi total of letters
    [1..i]. *)
Definition sumZ (l : list Z) : Z := foldr Z.add 0 l.

Definition hechrachi_of (c : N) : Z := default 0 (_HECHRACHI !! c).

Definition prefix_total (cs : list N) (i : nat) : Z :=
  sumZ (hechrachi_of <$> take i cs).

Definition boneh_spec (s : list N) : Z :=
  let cs := _strip_non_hebrew s in
  sumZ ((fun i => prefix_total cs i) <$> seq 1 (length cs)).

(** The eight cipher-then-score methods and the five final forms with their
    base letters. *)
Definition cipher_methods : list (list N → Z) :=
  [ atbash_value; albam_value; achbi_value; atbach_value; ayak_bachar_value;
    achas_beta_value; avgad_value; reverse_avgad_value ].

Definition final_forms : list (N * N) :=
  [ (final_kaf, kaf); (final_mem, mem); (final_nun, nun); (final_pe, pe);
    (final_tsadi, tsadi) ].

(** ** Auxiliary notions for the further properties *)

(** The sum of per-letter contributions [f] over a string, accumulated left
    to right as the loops of the methods do. *)
Definition sum_terms (f : N → Z) (cs : list N) : Z :=
  foldl (fun total c => total + f c) 0 cs.

(** What one letter adds to the total in the loop of [ofanim_value]. *)
Definition ofanim_term (names : gmap N (list N)) (c : N) : Z :=
  match last (default [] (names !! c)) with
  | Some l => mispar_hechrachi [l]
  | None => 0
  end.

Definition gadol_of (c : N) : Z := default 0 (_GADOL !! c).

(** The five final forms. *)
Definition is_final (c : N) : bool :=
  bool_decide (c ∈ [final_kaf; final_mem; final_nun; final_pe; final_tsadi]).

(** The six ciphers over the 22-letter alphabet, and all eight. *)
Definition base_ciphers : list (gmap N N) :=
  [ _ATBASH_MAP; _ALBAM_MAP; _ACHBI_MAP; _ACHAS_BETA_MAP; _AVGAD_MAP;
    _REV_AVGAD_MAP ].

Definition all_ciphers : list (gmap N N) :=
  [ _ATBASH_MAP; _ALBAM_MAP; _ACHBI_MAP; _ATBACH_MAP; _AYAK_MAP;
    _ACHAS_BETA_MAP; _AVGAD_MAP; _REV_AVGAD_MAP ].

(** The keys of a cipher table lie in the Hebrew block. *)
Definition hebrew_keys (mapping : gmap N N) : Prop :=
  map_Forall (fun k _ => (0x5D0 ≤ k ≤ 0x5EA)%N) mapping.

(** ** Auxiliary notions for the builder *)

Definition maqaf : N := 0x5BE.
Definition sof_pasuq : N := 0x5C3.

(** The value a catalog entry gives a token, 0 standing for an exception
    (none is raised, see [methods_return]). *)
Definition method_value (e : string * method) (tok : list N) : Z :=
  match call1 e.2 tok with
  | Ok n => n
  | Raise _ => 0
  end.

(** The [values] dict of one token and the update of [token_totals] by one
    token, in closed form. *)
Definition token_values_of (letters_tok : list N) : gmap string Z :=
  foldl (fun d e => <[e.1 := method_value e letters_tok]> d) ∅ ADDITIVE_METHODS.




(** The body of the verse loop of [chapter_record]. *)
Definition verse_step (isspace : N → bool) (chapter_data : gmap nat verse_entry)
    (iv : nat * list N) : result (gmap nat verse_entry) :=
  e ← verse_record isspace iv.2; Ok (<[iv.1 := e]> chapter_data).

(** The entry appended to [token_entries] for one token. *)
Definition token_record (tok : list N) : token_entry :=
  TokenEntry (letters_only tok) (token_values_of (letters_only tok)).

Definition add_totals (totals : gmap string Z) (letters_tok : list N)
  : gmap string Z :=
  foldl (fun d e => <[e.1 := default 0 (d !! e.1) + method_value e letters_tok]> d)
        totals ADDITIVE_METHODS.

(** * Properties *)

(** The tables are closed terms; [simpl] leaves them folded. *)
Arguments _HECHRACHI : simpl never.
Arguments _GADOL : simpl never.
Arguments _SIDURI : simpl never.
Arguments _KATAN : simpl never.
Arguments _MISPARI : simpl never.
Arguments _CUM_SUM_HECHRACHI : simpl never.
Arguments DEFAULT_LETTER_NAMES : simpl never.
Arguments _ATBASH_MAP : simpl never.
Arguments _ALBAM_MAP : simpl never.
Arguments _ACHBI_MAP : simpl never.
Arguments _ATBACH_MAP : simpl never.
Arguments _AYAK_MAP : simpl never.
Arguments _ACHAS_BETA_MAP : simpl never.
Arguments _AVGAD_MAP : simpl never.
Arguments _REV_AVGAD_MAP : simpl never.

(** ** Dicts built by assignment *)

Section Dicts.
Context {V : Type}.
Implicit Types (d : gmap N V) (items : list (N * V)).

Lemma lookup_assign_all d items k :
  foldl (fun d kv => <[kv.1 := kv.2]> d) d items !! k = None ↔
  d !! k = None ∧ k ∉ items.*1.
Proof.
  revert d. induction items as [|[k' x] items IH]; intros d; simpl.
  - split; [intros H; split; [done | apply not_elem_of_nil] | tauto].
  - rewrite IH, lookup_insert_None, not_elem_of_cons. simpl.
    split; [intros [[? ?] ?] | intros [? [? ?]]]; repeat split; auto.
Qed.

Lemma py_dict_lookup_None items k :
  py_dict items !! k = None ↔ k ∉ items.*1.
Proof.
  unfold py_dict. rewrite lookup_assign_all, lookup_empty. tauto.
Qed.
End Dicts.

(** ** The Hebrew block and the key set of the tables *)

Lemma hebrew_in_block c : hebrew c → c ∈ hebrew_block.
Proof.
  intros [Hlo Hhi]. unfold hebrew_block.
  apply list_elem_of_fmap. exists (N.to_nat c). split.
  - by rewrite N2Nat.id.
  - apply elem_of_seq. lia.
Qed.

(** A property of code points that holds on the 27 block members holds on
    every Hebrew letter; the premise is closed and can be computed. *)
Lemma hebrew_block_ind (P : N → Prop) :
  Forall P hebrew_block → ∀ c, hebrew c → P c.
Proof.
  intros HP c Hc. rewrite Forall_forall in HP.
  by apply HP, hebrew_in_block.
Qed.

Ltac by_compute := apply (bool_decide_unpack _); vm_compute; exact I.

Ltac unfold_letters :=
  unfold alef, bet, gimel, dalet, he, vav, zayin, het, tet, yod, final_kaf,
    kaf, lamed, final_mem, mem, final_nun, nun, samekh, ayin, final_pe, pe,
    final_tsadi, tsadi, qof, resh, shin, tav in *.

Lemma in_HECHRACHI_iff c : is_Some (_HECHRACHI !! c) ↔ hebrew c.
Proof.
  split.
  - intros Hsome. destruct (decide (hebrew c)) as [|Hn]; [done | exfalso].
    assert (_HECHRACHI !! c = None) as HN.
    { apply py_dict_lookup_None. intros Hin.
      apply list_elem_of_In in Hin. simpl in Hin.
      unfold hebrew in Hn. unfold_letters. lia. }
    rewrite HN in Hsome. by apply is_Some_None in Hsome.
  - revert c. apply hebrew_block_ind. by_compute.
Qed.

Lemma in_table_hebrew c : in_table _HECHRACHI c = true ↔ hebrew c.
Proof.
  unfold in_table. rewrite bool_decide_eq_true. apply in_HECHRACHI_iff.
Qed.

Lemma absent_not_hebrew c : _HECHRACHI !! c = None ↔ ¬ hebrew c.
Proof.
  rewrite <- in_HECHRACHI_iff, eq_None_not_Some. tauto.
Qed.

(** No [KeyError] while the module is loaded: the letters subscripted by the
    table-building loops are keys of [_HECHRACHI]. *)
Lemma ordered_letters_in_HECHRACHI :
  Forall (fun ch => is_Some (_HECHRACHI !! ch)) _ORDERED_LETTERS.
Proof. by_compute. Qed.

(** ** Filtering *)

Lemma strip_cons c s :
  _strip_non_hebrew (c :: s) =
  if in_table _HECHRACHI c then c :: _strip_non_hebrew s
  else _strip_non_hebrew s.
Proof. reflexivity. Qed.

Lemma strip_all_hebrew s : Forall hebrew (_strip_non_hebrew s).
Proof.
  apply Forall_forall. intros c Hc.
  apply list_elem_of_In, filter_In in Hc as [_ Hc].
  by apply in_table_hebrew.
Qed.

Lemma strip_no_hebrew s :
  Forall (fun c => ¬ hebrew c) s → _strip_non_hebrew s = [].
Proof.
  induction 1 as [|c s Hc _ IH]; [done |]. rewrite strip_cons.
  destruct (in_table _HECHRACHI c) eqn:E; [| exact IH].
  by apply in_table_hebrew in E.
Qed.

Lemma strip_app s1 s2 :
  _strip_non_hebrew (s1 ++ s2) = _strip_non_hebrew s1 ++ _strip_non_hebrew s2.
Proof. apply List.filter_app. Qed.

Lemma strip_absent s1 c s2 :
  _HECHRACHI !! c = None →
  _strip_non_hebrew (s1 ++ c :: s2) = _strip_non_hebrew (s1 ++ s2).
Proof.
  intros Hc. rewrite !strip_app. f_equal. rewrite strip_cons.
  unfold in_table. rewrite Hc.
  rewrite bool_decide_eq_false_2; [done | apply is_Some_None].
Qed.

(** ** Sums of non-negative terms *)

Lemma foldl_add_lower (f : N → Z) (l : list N) (a : Z) :
  Forall (fun c => 0 ≤ f c) l → a ≤ foldl (fun total c => total + f c) a l.
Proof.
  intros H. revert a. induction H as [|c l Hc _ IH]; intros a; simpl.
  - lia.
  - specialize (IH (a + f c)). lia.
Qed.

Lemma nonneg_table_get table c : nonneg_table table → 0 ≤ default 0 (table !! c).
Proof.
  intros H. destruct (table !! c) as [x|] eqn:E; simpl; [| lia].
  exact (H c x E).
Qed.

Lemma apply_table_nonneg s table : nonneg_table table → 0 ≤ _apply_table s table.
Proof.
  intros H. unfold _apply_table.
  apply (foldl_add_lower (fun c => default 0 (table !! c))).
  apply Forall_forall. intros c _. by apply nonneg_table_get.
Qed.

Lemma HECHRACHI_nonneg : nonneg_table _HECHRACHI.
Proof. by_compute. Qed.
Lemma GADOL_nonneg : nonneg_table _GADOL.
Proof. by_compute. Qed.
Lemma SIDURI_nonneg : nonneg_table _SIDURI.
Proof. by_compute. Qed.
Lemma KATAN_nonneg : nonneg_table _KATAN.
Proof. by_compute. Qed.
Lemma MISPARI_nonneg : nonneg_table _MISPARI.
Proof. by_compute. Qed.
Lemma CUM_SUM_nonneg : nonneg_table _CUM_SUM_HECHRACHI.
Proof. by_compute. Qed.

Lemma mispar_hechrachi_nonneg s : 0 ≤ mispar_hechrachi s.
Proof. apply apply_table_nonneg, HECHRACHI_nonneg. Qed.

Lemma mispar_gadol_nonneg s : 0 ≤ mispar_gadol s.
Proof. apply apply_table_nonneg, GADOL_nonneg. Qed.

Lemma mispar_kidmi_nonneg s : 0 ≤ mispar_kidmi s.
Proof.
  unfold mispar_kidmi.
  apply (foldl_add_lower
           (fun c => default 0 (_CUM_SUM_HECHRACHI !! final_to_base c))).
  apply Forall_forall. intros c _. apply nonneg_table_get, CUM_SUM_nonneg.
Qed.

Lemma boneh_loop_nonneg cs st :
  0 ≤ st.1 → 0 ≤ st.2 →
  0 ≤ (foldl boneh_step st cs).1 ∧ 0 ≤ (foldl boneh_step st cs).2.
Proof.
  revert st. induction cs as [|c cs IH]; intros [tot run] Ht Hr;
    cbn [foldl fst snd] in *.
  - done.
  - pose proof (nonneg_table_get _ c HECHRACHI_nonneg) as Hc.
    unfold boneh_step. cbn [fst snd].
    generalize dependent (default 0 (_HECHRACHI !! c)). intros h Hh.
    apply IH; cbn [fst snd]; lia.
Qed.

Lemma mispar_boneh_nonneg s : 0 ≤ mispar_boneh s.
Proof. unfold mispar_boneh. apply boneh_loop_nonneg; cbn [fst snd]; lia. Qed.

Lemma mispar_shemi_nonneg s t : 0 ≤ mispar_shemi s t.
Proof.
  unfold mispar_shemi.
  apply (foldl_add_lower (shemi_term (names_or_default t))).
  apply Forall_forall. intros c _. apply mispar_hechrachi_nonneg.
Qed.

Lemma mispar_neelam_nonneg s t : 0 ≤ mispar_neelam s t.
Proof.
  unfold mispar_neelam.
  apply (foldl_add_lower (neelam_term (names_or_default t))).
  apply Forall_forall. intros c _. apply mispar_hechrachi_nonneg.
Qed.

(** ** The methods that subscript *)

Lemma subscript_Some {V} (d : gmap N V) k x :
  d !! k = Some x → subscript d k = Ok x.
Proof. unfold subscript. by intros ->. Qed.

(** On a filtered string the power sums find every key. *)
Lemma sum_gen_power_ok (p : Z) (cs : list N) (acc : Z) :
  0 ≤ p → Forall hebrew cs →
  ∃ n, sum_gen (fun c => x ← subscript _HECHRACHI c; Ok (x ^ p)) cs acc = Ok n
       ∧ acc ≤ n.
Proof.
  intros Hp H. revert acc.
  induction H as [|c cs Hc _ IH]; intros acc; cbn [sum_gen].
  - exists acc. split; [done | lia].
  - apply in_HECHRACHI_iff in Hc as [x Hx].
    rewrite (subscript_Some _ _ _ Hx). cbn [mbind result_bind].
    destruct (IH (acc + x ^ p)) as (n & Hn & Hle).
    exists n. split; [exact Hn |].
    pose proof (HECHRACHI_nonneg c x Hx) as Hx0. cbv beta in Hx0.
    pose proof (Z.pow_nonneg x p Hx0). lia.
Qed.

Lemma mispar_perati_ok s : ∃ n, mispar_perati s = Ok n ∧ 0 ≤ n.
Proof. apply sum_gen_power_ok; [lia | apply strip_all_hebrew]. Qed.

Lemma mispar_meshulash_ok s : ∃ n, mispar_meshulash s = Ok n ∧ 0 ≤ n.
Proof. apply sum_gen_power_ok; [lia | apply strip_all_hebrew]. Qed.

(** [name[-1]] is only evaluated under [if name], so the loop of
    [ofanim_value] never raises, whatever the table. *)
Lemma ofanim_step_ok names total c :
  ∃ n, ofanim_step names total c = Ok n ∧ total ≤ n.
Proof.
  unfold ofanim_step. destruct (default [] (names !! c)) as [|x name] eqn:E.
  - rewrite bool_decide_eq_false_2 by (intros H; by apply H).
    exists total. split; [done | lia].
  - rewrite bool_decide_eq_true_2 by done.
    unfold last_item.
    destruct (last (x :: name)) as [l|] eqn:El.
    + cbn [mbind result_bind]. eexists. split; [reflexivity |].
      pose proof (mispar_hechrachi_nonneg [l]). lia.
    + by apply last_None in El.
Qed.

Lemma ofanim_loop_ok names cs total :
  ∃ n, foldl_result (ofanim_step names) total cs = Ok n ∧ total ≤ n.
Proof.
  revert total. induction cs as [|c cs IH]; intros total; cbn [foldl_result].
  - exists total. split; [done | lia].
  - destruct (ofanim_step_ok names total c) as (m & -> & Hm).
    cbn [mbind result_bind].
    destruct (IH m) as (n & Hn & Hle). exists n. split; [done | lia].
Qed.

Lemma ofanim_value_ok s t : ∃ n, ofanim_value s t = Ok n ∧ 0 ≤ n.
Proof. apply ofanim_loop_ok. Qed.

(** ** The catalog, method by method *)

(** Splits a [Forall] over [ADDITIVE_METHODS] into its twenty entries and
    exposes the Python function behind each. *)
Ltac each_method :=
  unfold ADDITIVE_METHODS;
  repeat (apply Forall_cons_2; [cbn [call1 call2 pure1 pure2 fst snd] |]);
  [.. | apply Forall_nil_2].

Ltac unfold_methods :=
  unfold atbash_value, albam_value, achbi_value, atbach_value,
    ayak_bachar_value, achas_beta_value, avgad_value, reverse_avgad_value,
    mispar_shemi, mispar_neelam, ofanim_value, mispar_perati,
    mispar_meshulash, mispar_kidmi, mispar_boneh, mispar_mispari,
    mispar_katan, mispar_siduri, mispar_gadol, mispar_hechrachi.

Lemma catalog_size : length ADDITIVE_METHODS = 20%nat.
Proof. reflexivity. Qed.

Lemma catalog_names_distinct : NoDup (ADDITIVE_METHODS.*1).
Proof. by_compute. Qed.

(** The five scoring tables have the key set of [_HECHRACHI], the table the
    filter consults. *)
Lemma scoring_tables_keys :
  Forall (fun table : gmap N Z => dom table = dom _HECHRACHI)
         [_HECHRACHI; _GADOL; _SIDURI; _KATAN; _MISPARI].
Proof. by_compute. Qed.

Lemma apply_table_absent table s1 c s2 :
  table !! c = None →
  _apply_table (s1 ++ c :: s2) table = _apply_table (s1 ++ s2) table.
Proof.
  intros Hc. unfold _apply_table. rewrite !foldl_app. cbn [foldl].
  rewrite Hc. cbn [default]. by rewrite Z.add_0_r.
Qed.

Lemma methods_return s :
  Forall (fun e => ∃ n, call1 e.2 s = Ok n ∧ 0 ≤ n) ADDITIVE_METHODS.
Proof.
  each_method;
    try (eexists; split; [reflexivity |]).
  - apply mispar_hechrachi_nonneg.
  - apply mispar_gadol_nonneg.
  - apply apply_table_nonneg, SIDURI_nonneg.
  - apply apply_table_nonneg, KATAN_nonneg.
  - apply mispar_perati_ok.
  - apply mispar_meshulash_ok.
  - apply mispar_kidmi_nonneg.
  - apply mispar_boneh_nonneg.
  - apply apply_table_nonneg, MISPARI_nonneg.
  - apply mispar_shemi_nonneg.
  - apply mispar_neelam_nonneg.
  - apply ofanim_value_ok.
  - apply mispar_hechrachi_nonneg.
  - apply mispar_hechrachi_nonneg.
  - apply mispar_hechrachi_nonneg.
  - apply mispar_gadol_nonneg.
  - apply mispar_gadol_nonneg.
  - apply mispar_hechrachi_nonneg.
  - apply mispar_hechrachi_nonneg.
  - apply mispar_hechrachi_nonneg.
Qed.

Lemma methods_ignore_absent s1 c s2 :
  _HECHRACHI !! c = None →
  Forall (fun e => call1 e.2 (s1 ++ c :: s2) = call1 e.2 (s1 ++ s2))
         ADDITIVE_METHODS.
Proof.
  intros Hc. pose proof (strip_absent s1 c s2 Hc) as E.
  each_method; unfold_methods; by rewrite E.
Qed.

(** C4. For every input string each of the twenty catalog methods returns
    normally with a non-negative integer, and a character absent from the
    relevant table contributes 0: [_apply_table] skips a character that is
    not a key of its table, and deleting from the input a character that the
    filter table does not hold changes the result of no method. *)
Theorem methods_total_and_nonneg (s s1 s2 : list N) (c : N) (table : gmap N Z) :
  length ADDITIVE_METHODS = 20%nat ∧
  Forall (fun e => ∃ n, call1 e.2 s = Ok n ∧ 0 ≤ n) ADDITIVE_METHODS ∧
  (table !! c = None →
   _apply_table (s1 ++ c :: s2) table = _apply_table (s1 ++ s2) table) ∧
  (_HECHRACHI !! c = None →
   Forall (fun e => call1 e.2 (s1 ++ c :: s2) = call1 e.2 (s1 ++ s2))
          ADDITIVE_METHODS).
Proof.
  split; [apply catalog_size |].
  split; [apply methods_return |].
  split; [apply apply_table_absent | apply methods_ignore_absent].
Qed.

(** An input with a vowel mark, a Latin letter and a space. *)
Lemma methods_total_and_nonneg_witness :
  _GADOL !! 0x5B0%N = None ∧ _HECHRACHI !! 0x61%N = None ∧
  _apply_table ([bet] ++ 0x5B0%N :: [resh]) _GADOL
    = _apply_table ([bet] ++ [resh]) _GADOL ∧
  Forall (fun e => call1 e.2 ([0x20%N; alef] ++ 0x61%N :: [final_kaf])
                   = call1 e.2 ([0x20%N; alef] ++ [final_kaf]))
         ADDITIVE_METHODS.
Proof.
  assert (H1 : _GADOL !! 0x5B0%N = None) by (vm_compute; reflexivity).
  assert (H2 : _HECHRACHI !! 0x61%N = None) by (vm_compute; reflexivity).
  split; [exact H1 |]. split; [exact H2 |].
  split.
  - exact (proj1 (proj2 (proj2
      (methods_total_and_nonneg [] [bet] [resh] 0x5B0%N _GADOL))) H1).
  - exact (proj2 (proj2 (proj2
      (methods_total_and_nonneg [] [0x20%N; alef] [final_kaf] 0x61%N ∅))) H2).
Defined.

(** C8. On a string with no character of the Hebrew consonant block (base or
    final form) each of the twenty catalog methods returns 0 normally; the
    three name methods do so with any letter-name table as well. *)
Theorem no_hebrew_gives_zero (s : list N) :
  Forall (fun c => ¬ hebrew c) s →
  Forall (fun e => call1 e.2 s = Ok 0) ADDITIVE_METHODS ∧
  ∀ names : gmap N (list N),
    Forall (fun e => takes_names e.1 → call2 e.2 s names = Ok 0)
           ADDITIVE_METHODS.
Proof.
  intros Hs. pose proof (strip_no_hebrew s Hs) as E. split.
  - each_method; unfold_methods; rewrite E; reflexivity.
  - intros names. each_method; intros Hname;
      try (exfalso; revert Hname; vm_compute; exact id);
      unfold_methods; rewrite E; reflexivity.
Qed.

Lemma no_hebrew_gives_zero_witness :
  Forall (fun c => ¬ hebrew c) [0x61%N; 0x5B0%N; 0x20%N; 0x5BE%N] ∧
  Forall (fun e => call1 e.2 [0x61%N; 0x5B0%N; 0x20%N; 0x5BE%N] = Ok 0)
         ADDITIVE_METHODS.
Proof.
  assert (H : Forall (fun c => ¬ hebrew c) [0x61%N; 0x5B0%N; 0x20%N; 0x5BE%N])
    by (repeat apply Forall_cons_2; try apply Forall_nil_2; unfold hebrew; lia).
  split; [exact H |].
  exact (proj1 (no_hebrew_gives_zero _ H)).
Defined.

(** ** Reference values *)

(** C1. For the six letters bet, resh, alef, shin, yod, tav (the first word
    of Genesis) [mispar_hechrachi] returns 913, [atbach_value] returns 2207
    and [ayak_bachar_value] returns 139; the last two are the Gadol scores of
    the cipher outputs, which for AtBach holds three final forms. *)
Theorem bereshit_reference :
  mispar_hechrachi bereshit = 913 ∧
  atbach_value bereshit = 2207 ∧
  ayak_bachar_value bereshit = 139 ∧
  _transform bereshit _ATBACH_MAP
    = [het; final_pe; tet; final_nun; tsadi; final_mem] ∧
  _apply_table (_transform bereshit _ATBACH_MAP) _GADOL = 2207 ∧
  _transform bereshit _AYAK_MAP = [kaf; bet; yod; gimel; qof; dalet] ∧
  _apply_table (_transform bereshit _AYAK_MAP) _GADOL = 139.
Proof. vm_compute. repeat split. Qed.

(** Scored with the standard table the AtBach output would give 277. *)
Lemma bereshit_atbach_hechrachi_score :
  mispar_hechrachi (_transform bereshit _ATBACH_MAP) = 277.
Proof. vm_compute. reflexivity. Qed.

(** ** The ciphers on the 22 base letters *)

Lemma on_ordered_letters (P : N → Prop) :
  Forall P _ORDERED_LETTERS → ∀ L, L ∈ _ORDERED_LETTERS → P L.
Proof. intros H L HL. rewrite Forall_forall in H. by apply H. Qed.

Lemma transform_singleton mapping c :
  _transform [c] mapping = [transform_char mapping c].
Proof. reflexivity. Qed.

(** The Achas Beta table: groups of 7, 7 and 8, and 21 keys; tav, the eighth
    letter of the third group, is dropped by the last [zip] and has no
    entry. *)
Lemma achas_beta_table_shape :
  (length g1, length g2, length g3) = (7, 7, 8)%nat ∧
  size _ACHAS_BETA_MAP = 21%nat ∧
  _ACHAS_BETA_MAP !! tav = None ∧
  Forall (fun L => L = tav ∨ is_Some (_ACHAS_BETA_MAP !! L)) _ORDERED_LETTERS.
Proof.
  split; [reflexivity |]. split; [by vm_compute |].
  split; [by vm_compute | by_compute].
Qed.

(** C3. The Achas Beta cipher, a lookup table filled by the three pairwise
    zips of the groups of 7, 7 and 8 letters and applied by [_transform],
    sends each of the 22 base letters to a base letter; tav, for which the
    table has no entry, is sent to itself by [mapping.get(base, base)]. *)
Theorem achas_beta_total (L : N) :
  L ∈ _ORDERED_LETTERS →
  _ACHAS_BETA_MAP = assign_zip (assign_zip (assign_zip ∅ g1 g2) g2 g3) g3 g1 ∧
  (∃ M, M ∈ _ORDERED_LETTERS ∧ _transform [L] _ACHAS_BETA_MAP = [M]) ∧
  _transform [tav] _ACHAS_BETA_MAP = [tav].
Proof.
  intros HL. split; [reflexivity |]. split; [| by vm_compute].
  exists (transform_char _ACHAS_BETA_MAP L). split; [| reflexivity].
  revert L HL. apply on_ordered_letters. by_compute.
Qed.

Lemma achas_beta_total_witness :
  tav ∈ _ORDERED_LETTERS ∧
  ∃ M, M ∈ _ORDERED_LETTERS ∧ _transform [tav] _ACHAS_BETA_MAP = [M].
Proof.
  assert (H : tav ∈ _ORDERED_LETTERS) by (apply (bool_decide_unpack _); exact I).
  split; [exact H |].
  exact (proj1 (proj2 (achas_beta_total tav H))).
Defined.

(** C6. Atbash is an involution on the 22 base letters: the table sends [L]
    to an [M] that it sends back to [L], and so does the cipher applied
    twice. *)
Theorem atbash_involution (L : N) :
  L ∈ _ORDERED_LETTERS →
  (∃ M, _ATBASH_MAP !! L = Some M ∧ _ATBASH_MAP !! M = Some L) ∧
  _transform (_transform [L] _ATBASH_MAP) _ATBASH_MAP = [L].
Proof.
  revert L. apply on_ordered_letters.
  assert (Forall (fun L => (_ATBASH_MAP !! L ≫= (_ATBASH_MAP !!.)) = Some L ∧
                           _transform (_transform [L] _ATBASH_MAP) _ATBASH_MAP
                           = [L]) _ORDERED_LETTERS) as H by by_compute.
  eapply Forall_impl; [exact H |]. intros L [H1 H2]. split; [| exact H2].
  destruct (_ATBASH_MAP !! L) as [M|] eqn:E; [| discriminate].
  exists M. split; [reflexivity | exact H1].
Qed.

Lemma atbash_involution_witness :
  bet ∈ _ORDERED_LETTERS ∧
  _transform (_transform [bet] _ATBASH_MAP) _ATBASH_MAP = [bet].
Proof.
  assert (H : bet ∈ _ORDERED_LETTERS) by (apply (bool_decide_unpack _); exact I).
  split; [exact H |].
  exact (proj2 (atbash_involution bet H)).
Defined.

(** C7. Avgad and Reverse Avgad are mutual inverses on the 22 base letters,
    as tables and as ciphers, in both orders. *)
Theorem avgad_reverse_avgad_inverse (L : N) :
  L ∈ _ORDERED_LETTERS →
  (∃ M, _AVGAD_MAP !! L = Some M ∧ _REV_AVGAD_MAP !! M = Some L) ∧
  (∃ M, _REV_AVGAD_MAP !! L = Some M ∧ _AVGAD_MAP !! M = Some L) ∧
  _transform (_transform [L] _AVGAD_MAP) _REV_AVGAD_MAP = [L] ∧
  _transform (_transform [L] _REV_AVGAD_MAP) _AVGAD_MAP = [L].
Proof.
  revert L. apply on_ordered_letters.
  assert (Forall (fun L =>
            (_AVGAD_MAP !! L ≫= (_REV_AVGAD_MAP !!.)) = Some L ∧
            (_REV_AVGAD_MAP !! L ≫= (_AVGAD_MAP !!.)) = Some L ∧
            _transform (_transform [L] _AVGAD_MAP) _REV_AVGAD_MAP = [L] ∧
            _transform (_transform [L] _REV_AVGAD_MAP) _AVGAD_MAP = [L])
          _ORDERED_LETTERS) as H by by_compute.
  eapply Forall_impl; [exact H |]. intros L (H1 & H2 & H3 & H4).
  repeat split; try done.
  - destruct (_AVGAD_MAP !! L) as [M|] eqn:E; [| discriminate].
    exists M. split; [reflexivity | exact H1].
  - destruct (_REV_AVGAD_MAP !! L) as [M|] eqn:E; [| discriminate].
    exists M. split; [reflexivity | exact H2].
Qed.

Lemma avgad_reverse_avgad_inverse_witness :
  tav ∈ _ORDERED_LETTERS ∧
  _transform (_transform [tav] _AVGAD_MAP) _REV_AVGAD_MAP = [tav] ∧
  _transform (_transform [tav] _REV_AVGAD_MAP) _AVGAD_MAP = [tav].
Proof.
  assert (H : tav ∈ _ORDERED_LETTERS) by (apply (bool_decide_unpack _); exact I).
  split; [exact H |].
  exact (proj2 (proj2 (avgad_reverse_avgad_inverse tav H))).
Defined.

(** ** Final forms under the ciphers *)

(** [cipher_methods] lists the functions the catalog registers under the
    eight cipher names. *)
Lemma cipher_methods_in_catalog :
  Forall2 (fun name f => (name, pure1 f) ∈ ADDITIVE_METHODS)
          [ "atbash"; "albam"; "achbi"; "atbach"; "ayak_bachar";
            "achas_beta"; "avgad"; "reverse_avgad" ]%string
          cipher_methods.
Proof.
  unfold cipher_methods, ADDITIVE_METHODS.
  repeat (apply List.Forall2_cons; [apply list_elem_of_In; cbn [In] |]);
    [.. | apply List.Forall2_nil];
    repeat (first [left; reflexivity | right]).
Qed.

(** C10. Each of the eight cipher-then-score methods gives a one-letter
    string holding a final form the value it gives the one-letter string
    holding its base letter: whatever the mapping, [_transform] turns both
    strings into the same output. *)
Theorem final_form_same_as_base (mapping : gmap N N) :
  length cipher_methods = 8%nat ∧ length final_forms = 5%nat ∧
  Forall (fun fb : N * N => _transform [fb.1] mapping = _transform [fb.2] mapping)
         final_forms ∧
  Forall (fun f : list N → Z =>
            Forall (fun fb : N * N => f [fb.1] = f [fb.2]) final_forms)
         cipher_methods.
Proof.
  split; [reflexivity |]. split; [reflexivity |]. split; [| by_compute].
  unfold final_forms.
  repeat (apply Forall_cons_2; [reflexivity |]). apply Forall_nil_2.
Qed.

(** ** Mispar Boneh *)

Lemma prefix_total_cons c cs i :
  prefix_total (c :: cs) (S i) = hechrachi_of c + prefix_total cs i.
Proof. reflexivity. Qed.

(** The loop invariant: after the letters [cs], [running] has grown by their
    Hechrachi total and [total] by the sum of the running totals seen. *)
Lemma boneh_loop cs total running :
  foldl boneh_step (total, running) cs =
  (total + sumZ ((fun i => running + prefix_total cs i) <$> seq 1 (length cs)),
   running + prefix_total cs (length cs)).
Proof.
  revert total running. induction cs as [|c cs IH]; intros total running.
  - cbn. f_equal; lia.
  - cbn [foldl]. unfold boneh_step at 2. cbn [fst snd].
    fold (hechrachi_of c). rewrite IH. cbn [length].
    rewrite prefix_total_cons.
    change (seq 1 (S (length cs))) with (1%nat :: seq 2 (length cs)).
    rewrite <- (fmap_S_seq 1), fmap_cons, <- list_fmap_compose.
    cbn [sumZ foldr].
    fold (sumZ ((fun i => running + prefix_total (c :: cs) i) ∘ S
                  <$> seq 1 (length cs))).
    rewrite (list_fmap_ext
               ((fun i => running + prefix_total (c :: cs) i) ∘ S)
               (fun i => running + hechrachi_of c + prefix_total cs i)
               (seq 1 (length cs)))
      by (intros i j _; unfold compose; rewrite prefix_total_cons; lia).
    rewrite (prefix_total_cons c cs 0).
    replace (prefix_total cs 0) with 0 by (by destruct cs).
    f_equal; lia.
Qed.

(** C5. Mispar Boneh of a string whose filtered letters are [c1..cn] is the
    sum over [i = 1..n] of the Hechrachi total of [c1..ci]. *)
Theorem boneh_is_sum_of_prefix_totals (s : list N) :
  mispar_boneh s = boneh_spec s.
Proof.
  unfold mispar_boneh, boneh_spec. rewrite boneh_loop. cbn [fst].
  rewrite Z.add_0_l. reflexivity.
Qed.

Example boneh_spec_bereshit : boneh_spec bereshit = 2336.
Proof. vm_compute. reflexivity. Qed.

(** ** Letter-name tables supplied by the caller *)

Lemma foldl_add_skip (f : N → Z) (l1 l2 : list N) (c : N) (a : Z) :
  f c = 0 →
  foldl (fun total x => total + f x) a (l1 ++ c :: l2) =
  foldl (fun total x => total + f x) a (l1 ++ l2).
Proof.
  intros Hc. rewrite !foldl_app. cbn [foldl]. by rewrite Hc, Z.add_0_r.
Qed.

Lemma foldl_result_app {A B} (f : A → B → result A) (l1 l2 : list B) (a : A) :
  foldl_result f a (l1 ++ l2) =
  a' ← foldl_result f a l1; foldl_result f a' l2.
Proof.
  revert a. induction l1 as [|x l1 IH]; intros a; cbn [app foldl_result].
  - reflexivity.
  - destruct (f a x) as [a'|e]; cbn [mbind result_bind]; [apply IH | done].
Qed.

Lemma foldl_result_skip {A B} (f : A → B → result A) l1 l2 (c : B) (a : A) :
  (∀ a, f a c = Ok a) →
  foldl_result f a (l1 ++ c :: l2) = foldl_result f a (l1 ++ l2).
Proof.
  intros Hc. rewrite !foldl_result_app.
  destruct (foldl_result f a l1) as [a'|e]; cbn [mbind result_bind]; [| done].
  cbn [foldl_result]. by rewrite Hc.
Qed.

(** The filtered string around one character. *)
Lemma strip_middle s1 c s2 :
  _strip_non_hebrew (s1 ++ c :: s2) =
  _strip_non_hebrew s1 ++ c :: _strip_non_hebrew s2 ∨
  _strip_non_hebrew (s1 ++ c :: s2) = _strip_non_hebrew (s1 ++ s2).
Proof.
  rewrite !strip_app, strip_cons.
  destruct (in_table _HECHRACHI c); [by left | by right].
Qed.

Lemma hechrachi_empty : mispar_hechrachi [] = 0.
Proof. reflexivity. Qed.

Section MissingName.
Variable names : gmap N (list N).
Variable c : N.
Hypothesis Hmiss : names !! c = None.

Lemma shemi_term_missing : shemi_term names c = 0.
Proof. unfold shemi_term. rewrite Hmiss. exact hechrachi_empty. Qed.

Lemma neelam_term_missing : neelam_term names c = 0.
Proof. unfold neelam_term. rewrite Hmiss. exact hechrachi_empty. Qed.

Lemma ofanim_step_missing total : ofanim_step names total c = Ok total.
Proof. unfold ofanim_step. rewrite Hmiss. reflexivity. Qed.

Lemma shemi_skips_missing s1 s2 :
  mispar_shemi (s1 ++ c :: s2) (Some names) =
  mispar_shemi (s1 ++ s2) (Some names).
Proof.
  unfold mispar_shemi. cbn [names_or_default].
  destruct (strip_middle s1 c s2) as [-> | ->]; [| done].
  rewrite strip_app. apply (foldl_add_skip (shemi_term names)).
  apply shemi_term_missing.
Qed.

Lemma neelam_skips_missing s1 s2 :
  mispar_neelam (s1 ++ c :: s2) (Some names) =
  mispar_neelam (s1 ++ s2) (Some names).
Proof.
  unfold mispar_neelam. cbn [names_or_default].
  destruct (strip_middle s1 c s2) as [-> | ->]; [| done].
  rewrite strip_app. apply (foldl_add_skip (neelam_term names)).
  apply neelam_term_missing.
Qed.

Lemma ofanim_skips_missing s1 s2 :
  ofanim_value (s1 ++ c :: s2) (Some names) =
  ofanim_value (s1 ++ s2) (Some names).
Proof.
  unfold ofanim_value. cbn [names_or_default].
  destruct (strip_middle s1 c s2) as [-> | ->]; [| done].
  rewrite strip_app. apply foldl_result_skip. apply ofanim_step_missing.
Qed.
End MissingName.

Lemma name_methods_return (names : gmap N (list N)) (s : list N) :
  Forall (fun e => takes_names e.1 → ∃ n, call2 e.2 s names = Ok n)
         ADDITIVE_METHODS.
Proof.
  each_method; intros Hname;
    try (exfalso; revert Hname; vm_compute; exact id).
  - by eexists.
  - by eexists.
  - destruct (ofanim_value_ok s (Some names)) as (n & Hn & _). by exists n.
Qed.

(** The catalog entries that take a letter-name table are the three
    name-expansion methods. *)
Lemma name_methods_are_three :
  (List.filter (fun e => takes_names e.1) ADDITIVE_METHODS).*1
  = ["shemi"; "neelam"; "ofanim"]%string.
Proof. vm_compute. reflexivity. Qed.

(** C9. With any caller-supplied letter-name table the three name-expansion
    methods return normally on every string, and a letter missing from the
    table contributes 0: its term in Shemi and Ne'elam is 0, the Ofanim step
    leaves the total unchanged, and deleting the letter from the input
    changes the result of none of the three. *)
Theorem missing_name_contributes_zero
    (names : gmap N (list N)) (c : N) (s s1 s2 : list N) (total : Z) :
  Forall (fun e => takes_names e.1 → ∃ n, call2 e.2 s names = Ok n)
         ADDITIVE_METHODS ∧
  (names !! c = None →
   shemi_term names c = 0 ∧ neelam_term names c = 0 ∧
   ofanim_step names total c = Ok total ∧
   Forall (fun e => takes_names e.1 →
             call2 e.2 (s1 ++ c :: s2) names = call2 e.2 (s1 ++ s2) names)
          ADDITIVE_METHODS).
Proof.
  split; [apply name_methods_return |]. intros Hc.
  split; [by apply shemi_term_missing |].
  split; [by apply neelam_term_missing |].
  split; [by apply ofanim_step_missing |].
  each_method; intros Hname;
    try (exfalso; revert Hname; vm_compute; exact id).
  - f_equal. by apply shemi_skips_missing.
  - f_equal. by apply neelam_skips_missing.
  - by apply ofanim_skips_missing.
Qed.

(** A table that spells only alef, used on a string that also holds bet. *)
Lemma missing_name_contributes_zero_witness :
  ({[alef := [alef; lamed; final_pe]]} : gmap N (list N)) !! bet = None ∧
  Forall (fun e => takes_names e.1 →
            call2 e.2 ([alef] ++ bet :: [alef])
                  {[alef := [alef; lamed; final_pe]]}
            = call2 e.2 ([alef] ++ [alef]) {[alef := [alef; lamed; final_pe]]})
         ADDITIVE_METHODS.
Proof.
  assert (H : ({[alef := [alef; lamed; final_pe]]} : gmap N (list N)) !! bet
              = None) by (vm_compute; reflexivity).
  split; [exact H |].
  exact (proj2 (proj2 (proj2 (proj2
    (missing_name_contributes_zero _ bet [] [alef] [alef] 0) H)))).
Defined.

(** ** The driver *)


Lemma for_each_ok {A} (l : list A) (body : A → io unit) :
  (∀ x w, x ∈ l → ∃ w', body x w = (w', Ok ())) →
  ∀ w, ∃ w', for_each l body w = (w', Ok ()).
Proof.
  induction l as [|x l IH]; intros Hbody w; cbn [for_each].
  - by exists w.
  - destruct (Hbody x w) as [w1 H1]; [apply list_elem_of_here |].
    unfold mbind, io_bind. rewrite H1. apply IH.
    intros y w2 Hy. apply Hbody. by apply list_elem_of_further.
Qed.

Lemma foldl_result_ok {A B} (f : A → B → result A) (I : A → Prop) (l : list B) :
  (∀ a x, x ∈ l → I a → ∃ a', f a x = Ok a' ∧ I a') →
  ∀ a, I a → ∃ a', foldl_result f a l = Ok a' ∧ I a'.
Proof.
  induction l as [|x l IH]; intros Hf a Ha; cbn [foldl_result].
  - by exists a.
  - destruct (Hf a x) as (a1 & E1 & H1); [apply list_elem_of_here | done |].
    rewrite E1. cbn [mbind result_bind]. apply IH; [| done].
    intros b y Hy. apply Hf. by apply list_elem_of_further.
Qed.

(** *** No method fails inside the builder *)

Lemma catalog_call_ok tok e :
  e ∈ ADDITIVE_METHODS →
  ∃ n, (if takes_names e.1 then call2 e.2 tok DEFAULT_LETTER_NAMES
        else call1 e.2 tok) = Ok n.
Proof.
  intros He. destruct (takes_names e.1) eqn:E.
  - pose proof (name_methods_return DEFAULT_LETTER_NAMES tok) as H.
    rewrite Forall_forall in H. apply (H e He). by rewrite E.
  - pose proof (methods_return tok) as H. rewrite Forall_forall in H.
    destruct (H e He) as (n & Hn & _). by exists n.
Qed.

Lemma catalog_names_in_totals :
  Forall (fun e : string * method => is_Some (zero_totals !! e.1))
         ADDITIVE_METHODS.
Proof. by_compute. Qed.

Lemma method_step_ok tok st e :
  e ∈ ADDITIVE_METHODS → totals_ready st.2 →
  ∃ st', method_step tok st e = Ok st' ∧ totals_ready st'.2.
Proof.
  intros He Hdom.
  assert (is_Some (st.2 !! e.1)) as [tot Ht].
  { apply elem_of_dom. rewrite Hdom. apply elem_of_dom.
    pose proof catalog_names_in_totals as H. rewrite Forall_forall in H.
    by apply H. }
  destruct (catalog_call_ok tok e He) as [n Hn].
  destruct e as [name m]. unfold method_step. cbn [fst snd] in *.
  rewrite Hn. cbn [mbind result_bind]. rewrite Ht.
  eexists. split; [reflexivity |]. cbn [snd]. unfold totals_ready in *.
  rewrite dom_insert_L, <- Hdom. apply elem_of_dom_2 in Ht.
  apply subseteq_union_1_L. by apply singleton_subseteq_l.
Qed.

Lemma token_step_ok st tok :
  totals_ready st.2 → ∃ st', token_step st tok = Ok st' ∧ totals_ready st'.2.
Proof.
  intros Hdom. unfold token_step.
  destruct (foldl_result_ok (method_step (letters_only tok))
              (fun st => totals_ready st.2) ADDITIVE_METHODS)
    with (a := (∅ : gmap string Z, st.2)) as ([values totals] & E & H).
  - intros a e He Ha. by apply method_step_ok.
  - exact Hdom.
  - rewrite E. cbn [mbind result_bind]. eexists. split; [reflexivity | exact H].
Qed.

Section DriverFacts.
Variable isspace : N → bool.
Variable lower : list N → list N.

Lemma verse_record_ok verse : ∃ e, verse_record isspace verse = Ok e.
Proof.
  unfold verse_record.
  destruct (foldl_result_ok token_step (fun st => totals_ready st.2)
              (tokenize isspace (remove_diacritics verse)))
    with (a := ([] : list token_entry, zero_totals))
    as ([entries totals] & E & _).
  - intros a tok _ Ha. by apply token_step_ok.
  - reflexivity.
  - rewrite E. cbn [mbind result_bind]. by eexists.
Qed.



End DriverFacts.




(** * Further properties of the engine *)

(** ** Characters outside the Hebrew block *)

Lemma final_to_base_non_hebrew c : ¬ hebrew c → final_to_base c = c.
Proof.
  intros Hc. unfold final_to_base, hebrew in *. unfold_letters.
  repeat match goal with
         | |- context [(c =? ?k)%N] =>
             rewrite (proj2 (N.eqb_neq c k)) by lia
         end.
  reflexivity.
Qed.

Lemma final_to_base_hebrew c : hebrew (final_to_base c) ↔ hebrew c.
Proof.
  destruct (decide (hebrew c)) as [Hc|Hn].
  - split; [done | intros _]. revert c Hc. apply hebrew_block_ind. by_compute.
  - by rewrite (final_to_base_non_hebrew c Hn).
Qed.

Lemma final_to_base_idemp c : final_to_base (final_to_base c) = final_to_base c.
Proof.
  destruct (decide (hebrew c)) as [Hc|Hn].
  - revert c Hc. apply hebrew_block_ind. by_compute.
  - by rewrite !(final_to_base_non_hebrew c Hn).
Qed.

Lemma hebrew_keys_None mapping c :
  hebrew_keys mapping → ¬ hebrew c → mapping !! c = None.
Proof.
  intros HM Hc. destruct (mapping !! c) as [x|] eqn:E; [| done].
  exfalso. apply Hc. exact (HM c x E).
Qed.

Lemma all_ciphers_hebrew_keys : Forall hebrew_keys all_ciphers.
Proof. by_compute. Qed.

Lemma transform_char_non_hebrew mapping c :
  hebrew_keys mapping → ¬ hebrew c → transform_char mapping c = c.
Proof.
  intros HM Hc. unfold transform_char.
  rewrite (final_to_base_non_hebrew c Hc), (hebrew_keys_None _ _ HM Hc).
  reflexivity.
Qed.

Lemma table_None_non_hebrew (table : gmap N Z) c :
  dom table = dom _HECHRACHI → ¬ hebrew c → table !! c = None.
Proof.
  intros Hdom Hc. apply not_elem_of_dom. rewrite Hdom.
  apply not_elem_of_dom. by apply absent_not_hebrew.
Qed.

Lemma GADOL_keys : dom _GADOL = dom _HECHRACHI.
Proof. by_compute. Qed.

Lemma hechrachi_of_non_hebrew c : ¬ hebrew c → hechrachi_of c = 0.
Proof.
  intros Hc. unfold hechrachi_of.
  by rewrite (proj2 (absent_not_hebrew c) Hc).
Qed.

Lemma gadol_of_non_hebrew c : ¬ hebrew c → gadol_of c = 0.
Proof.
  intros Hc. unfold gadol_of.
  by rewrite (table_None_non_hebrew _ c GADOL_keys Hc).
Qed.

(** A predicate on code points holds everywhere when it holds on the 27
    block members and outside the block. *)
Lemma all_chars (P : N → Prop) :
  Forall P hebrew_block → (∀ c, ¬ hebrew c → P c) → ∀ c, P c.
Proof.
  intros Hb Ho c. destruct (decide (hebrew c)) as [Hc|Hn]; [| by apply Ho].
  by apply (hebrew_block_ind P Hb).
Qed.

(** ** Sums of per-letter terms *)

Lemma foldl_add_shift (f : N → Z) (cs : list N) (a : Z) :
  foldl (fun total c => total + f c) a cs = a + sum_terms f cs.
Proof.
  unfold sum_terms. revert a. induction cs as [|c cs IH]; intros a; cbn [foldl].
  - lia.
  - rewrite IH, (IH (0 + f c)). lia.
Qed.

Lemma sum_terms_nil f : sum_terms f [] = 0.
Proof. reflexivity. Qed.

Lemma sum_terms_cons f c cs : sum_terms f (c :: cs) = f c + sum_terms f cs.
Proof. unfold sum_terms at 1. cbn [foldl]. rewrite foldl_add_shift. lia. Qed.

Lemma sum_terms_app f cs1 cs2 :
  sum_terms f (cs1 ++ cs2) = sum_terms f cs1 + sum_terms f cs2.
Proof.
  unfold sum_terms at 1. rewrite foldl_app.
  fold (sum_terms f cs1). by rewrite foldl_add_shift.
Qed.

Lemma sum_terms_ext f g cs :
  Forall (fun c => f c = g c) cs → sum_terms f cs = sum_terms g cs.
Proof.
  induction 1 as [|c cs Hc _ IH]; [done |].
  by rewrite !sum_terms_cons, Hc, IH.
Qed.

Lemma sum_terms_fmap f (h : N → N) cs :
  sum_terms f (h <$> cs) = sum_terms (fun c => f (h c)) cs.
Proof.
  induction cs as [|c cs IH]; [done |].
  rewrite fmap_cons, !sum_terms_cons. by rewrite IH.
Qed.

(** Letters that add nothing may be filtered out first. *)
Lemma sum_terms_strip f cs :
  (∀ c, ¬ hebrew c → f c = 0) →
  sum_terms f (_strip_non_hebrew cs) = sum_terms f cs.
Proof.
  intros Hf. induction cs as [|c cs IH]; [done |].
  rewrite strip_cons, sum_terms_cons.
  destruct (in_table _HECHRACHI c) eqn:E.
  - by rewrite sum_terms_cons, IH.
  - rewrite IH, Hf; [lia |]. intros Hc. apply in_table_hebrew in Hc. congruence.
Qed.

Lemma sum_terms_lower f cs (k : Z) :
  Forall (fun c => k ≤ f c) cs → k * Z.of_nat (length cs) ≤ sum_terms f cs.
Proof.
  induction 1 as [|c cs Hc _ IH]; [cbn; lia |].
  rewrite sum_terms_cons. cbn [length]. lia.
Qed.

Lemma sum_terms_upper f cs (k : Z) :
  Forall (fun c => f c ≤ k) cs → sum_terms f cs ≤ k * Z.of_nat (length cs).
Proof.
  induction 1 as [|c cs Hc _ IH]; [cbn; lia |].
  rewrite sum_terms_cons. cbn [length]. lia.
Qed.

Lemma sum_terms_le f g cs :
  Forall (fun c => f c ≤ g c) cs → sum_terms f cs ≤ sum_terms g cs.
Proof.
  induction 1 as [|c cs Hc _ IH]; [done |].
  rewrite !sum_terms_cons. lia.
Qed.

Lemma sum_terms_Permutation f cs1 cs2 :
  Permutation cs1 cs2 → sum_terms f cs1 = sum_terms f cs2.
Proof.
  induction 1 as [| c cs1 cs2 _ IH | c1 c2 cs | cs1 cs2 cs3 _ IH1 _ IH2].
  - done.
  - by rewrite !sum_terms_cons, IH.
  - rewrite !sum_terms_cons. lia.
  - by rewrite IH1.
Qed.

(** On filtered letters a property of the block members is available. *)
Lemma strip_Forall (P : N → Prop) s :
  Forall P hebrew_block → Forall P (_strip_non_hebrew s).
Proof.
  intros HP. eapply Forall_impl; [apply strip_all_hebrew |].
  intros c Hc. by apply (hebrew_block_ind P HP).
Qed.

(** ** Each method as a sum over the filtered letters *)

Lemma hechrachi_sum s :
  mispar_hechrachi s = sum_terms hechrachi_of (_strip_non_hebrew s).
Proof. reflexivity. Qed.

Lemma hechrachi_sum_all s : mispar_hechrachi s = sum_terms hechrachi_of s.
Proof.
  unfold mispar_hechrachi, _apply_table. fold (sum_terms hechrachi_of).
  apply (sum_terms_strip hechrachi_of), hechrachi_of_non_hebrew.
Qed.

Lemma gadol_sum_all s : mispar_gadol s = sum_terms gadol_of s.
Proof.
  unfold mispar_gadol, _apply_table. fold (sum_terms gadol_of).
  apply (sum_terms_strip gadol_of), gadol_of_non_hebrew.
Qed.

Lemma power_sum (p : Z) (cs : list N) (acc : Z) :
  Forall hebrew cs →
  sum_gen (fun c => x ← subscript _HECHRACHI c; Ok (x ^ p)) cs acc
  = Ok (acc + sum_terms (fun c => hechrachi_of c ^ p) cs).
Proof.
  intros H. revert acc.
  induction H as [|c cs Hc _ IH]; intros acc; cbn [sum_gen].
  - rewrite sum_terms_nil. f_equal. lia.
  - apply in_HECHRACHI_iff in Hc as [x Hx].
    assert (hechrachi_of c = x) as Hh
      by (unfold hechrachi_of; by rewrite Hx).
    rewrite (subscript_Some _ _ _ Hx). cbn [mbind result_bind].
    rewrite IH, sum_terms_cons. cbv beta. rewrite Hh. f_equal. lia.
Qed.

Lemma ofanim_step_term names total c :
  ofanim_step names total c = Ok (total + ofanim_term names c).
Proof.
  unfold ofanim_step, ofanim_term, last_item.
  destruct (default [] (names !! c)) as [|x name] eqn:E.
  - rewrite bool_decide_eq_false_2 by (intros H; by apply H).
    cbn [last]. f_equal. lia.
  - rewrite bool_decide_eq_true_2 by done.
    destruct (last (x :: name)) as [l|] eqn:El; [reflexivity |].
    by apply last_None in El.
Qed.

Lemma ofanim_loop_sum names cs total :
  foldl_result (ofanim_step names) total cs
  = Ok (total + sum_terms (ofanim_term names) cs).
Proof.
  revert total. induction cs as [|c cs IH]; intros total; cbn [foldl_result].
  - rewrite sum_terms_nil. f_equal. lia.
  - rewrite ofanim_step_term. cbn [mbind result_bind].
    rewrite IH, sum_terms_cons. f_equal. lia.
Qed.

Lemma cipher_hechrachi_sum mapping s :
  mispar_hechrachi (_transform (_strip_non_hebrew s) mapping)
  = sum_terms (fun c => hechrachi_of (transform_char mapping c))
              (_strip_non_hebrew s).
Proof.
  rewrite hechrachi_sum_all. unfold _transform. apply sum_terms_fmap.
Qed.

Lemma cipher_gadol_sum mapping s :
  mispar_gadol (_transform (_strip_non_hebrew s) mapping)
  = sum_terms (fun c => gadol_of (transform_char mapping c))
              (_strip_non_hebrew s).
Proof.
  rewrite gadol_sum_all. unfold _transform. apply sum_terms_fmap.
Qed.

(** Every catalog method but Boneh is the sum, over the filtered letters, of
    a per-letter term; the term is at least 1 on a Hebrew letter, and except
    for Gadol it does not tell a final form from its base letter. *)
Lemma letter_sum_form :
  Forall (fun e : string * method =>
            e.1 ≠ "boneh"%string →
            ∃ f : N → Z,
              (∀ s, call1 e.2 s = Ok (sum_terms f (_strip_non_hebrew s))) ∧
              Forall (fun c => 1 ≤ f c) hebrew_block ∧
              (e.1 ≠ "gadol"%string →
               Forall (fun c => f (final_to_base c) = f c) hebrew_block))
         ADDITIVE_METHODS.
Proof.
  each_method; intros Hboneh; try (exfalso; by apply Hboneh).
  - exists hechrachi_of. split; [done |]. split; [by_compute | intros _; by_compute].
  - exists gadol_of. split; [done |]. split; [by_compute |].
    intros H. exfalso. by apply H.
  - exists (fun c => default 0 (_SIDURI !! c)).
    split; [done |]. split; [by_compute | intros _; by_compute].
  - exists (fun c => default 0 (_KATAN !! c)).
    split; [done |]. split; [by_compute | intros _; by_compute].
  - exists (fun c => hechrachi_of c ^ 2). split.
    + intros s. unfold mispar_perati.
      rewrite power_sum by apply strip_all_hebrew. f_equal.
    + split; [by_compute | intros _; by_compute].
  - exists (fun c => hechrachi_of c ^ 3). split.
    + intros s. unfold mispar_meshulash.
      rewrite power_sum by apply strip_all_hebrew. f_equal.
    + split; [by_compute | intros _; by_compute].
  - exists (fun c => default 0 (_CUM_SUM_HECHRACHI !! final_to_base c)).
    split; [done |]. split; [by_compute | intros _; by_compute].
  - exists (fun c => default 0 (_MISPARI !! c)).
    split; [done |]. split; [by_compute | intros _; by_compute].
  - exists (shemi_term DEFAULT_LETTER_NAMES).
    split; [done |]. split; [by_compute | intros _; by_compute].
  - exists (neelam_term DEFAULT_LETTER_NAMES).
    split; [done |]. split; [by_compute | intros _; by_compute].
  - exists (ofanim_term DEFAULT_LETTER_NAMES). split.
    + intros s. unfold ofanim_value. cbn [names_or_default].
      rewrite ofanim_loop_sum. f_equal.
    + split; [by_compute | intros _; by_compute].
  - exists (fun c => hechrachi_of (transform_char _ATBASH_MAP c)). split.
    + intros s. unfold atbash_value. by rewrite cipher_hechrachi_sum.
    + split; [by_compute | intros _; by_compute].
  - exists (fun c => hechrachi_of (transform_char _ALBAM_MAP c)). split.
    + intros s. unfold albam_value. by rewrite cipher_hechrachi_sum.
    + split; [by_compute | intros _; by_compute].
  - exists (fun c => hechrachi_of (transform_char _ACHBI_MAP c)). split.
    + intros s. unfold achbi_value. by rewrite cipher_hechrachi_sum.
    + split; [by_compute | intros _; by_compute].
  - exists (fun c => gadol_of (transform_char _ATBACH_MAP c)). split.
    + intros s. unfold atbach_value. by rewrite cipher_gadol_sum.
    + split; [by_compute | intros _; by_compute].
  - exists (fun c => gadol_of (transform_char _AYAK_MAP c)). split.
    + intros s. unfold ayak_bachar_value. by rewrite cipher_gadol_sum.
    + split; [by_compute | intros _; by_compute].
  - exists (fun c => hechrachi_of (transform_char _ACHAS_BETA_MAP c)). split.
    + intros s. unfold achas_beta_value. by rewrite cipher_hechrachi_sum.
    + split; [by_compute | intros _; by_compute].
  - exists (fun c => hechrachi_of (transform_char _AVGAD_MAP c)). split.
    + intros s. unfold avgad_value. by rewrite cipher_hechrachi_sum.
    + split; [by_compute | intros _; by_compute].
  - exists (fun c => hechrachi_of (transform_char _REV_AVGAD_MAP c)). split.
    + intros s. unfold reverse_avgad_value. by rewrite cipher_hechrachi_sum.
    + split; [by_compute | intros _; by_compute].
Qed.

Lemma boneh_entry :
  Forall (fun e : string * method =>
            e.1 = "boneh"%string → e.2 = pure1 mispar_boneh)
         ADDITIVE_METHODS.
Proof.
  unfold ADDITIVE_METHODS.
  repeat (apply Forall_cons_2; [cbn [fst snd]; intros H; first [reflexivity | discriminate H] |]).
  apply Forall_nil_2.
Qed.

Lemma strip_fmap_base s :
  _strip_non_hebrew (final_to_base <$> s) = final_to_base <$> _strip_non_hebrew s.
Proof.
  induction s as [|c s IH]; [done |].
  rewrite fmap_cons, !strip_cons, IH.
  destruct (in_table _HECHRACHI c) eqn:E.
  - assert (in_table _HECHRACHI (final_to_base c) = true) as ->; [| done].
    apply in_table_hebrew, final_to_base_hebrew, in_table_hebrew. exact E.
  - destruct (in_table _HECHRACHI (final_to_base c)) eqn:E'; [| done].
    apply in_table_hebrew in E'.
    apply (proj1 (final_to_base_hebrew c)), in_table_hebrew in E'.
    congruence.
Qed.

Lemma strip_idemp s : _strip_non_hebrew (_strip_non_hebrew s) = _strip_non_hebrew s.
Proof.
  induction s as [|c s IH]; [done |]. rewrite strip_cons.
  destruct (in_table _HECHRACHI c) eqn:E; [| done].
  by rewrite strip_cons, E, IH.
Qed.

Lemma strip_Permutation s1 s2 :
  Permutation s1 s2 → Permutation (_strip_non_hebrew s1) (_strip_non_hebrew s2).
Proof.
  induction 1 as [| c s1 s2 _ IH | c1 c2 s | s1 s2 s3 _ IH1 _ IH2].
  - done.
  - rewrite !strip_cons. destruct (in_table _HECHRACHI c); [by constructor | done].
  - rewrite !strip_cons.
    destruct (in_table _HECHRACHI c1), (in_table _HECHRACHI c2);
      try done; apply perm_swap.
  - by etrans.
Qed.

Lemma strip_nil_inv s : _strip_non_hebrew s = [] → Forall (fun c => ¬ hebrew c) s.
Proof.
  induction s as [|c s IH]; [intros _; apply Forall_nil_2 |].
  rewrite strip_cons. destruct (in_table _HECHRACHI c) eqn:E; [done |].
  intros H. apply Forall_cons_2; [| by apply IH].
  intros Hc. apply in_table_hebrew in Hc. congruence.
Qed.

(** ** Mispar Boneh over a concatenation *)

Lemma boneh_shift cs total running :
  foldl boneh_step (total, running) cs =
  (total + running * Z.of_nat (length cs) + (foldl boneh_step (0, 0) cs).1,
   running + sum_terms hechrachi_of cs).
Proof.
  revert total running. induction cs as [|c cs IH]; intros total running.
  - cbn [foldl length fst]. rewrite sum_terms_nil. f_equal; lia.
  - cbn [foldl]. unfold boneh_step at 2 4. cbn [fst snd].
    fold (hechrachi_of c). rewrite IH.
    rewrite (IH (0 + (0 + hechrachi_of c)) (0 + hechrachi_of c)).
    cbn [fst length]. rewrite sum_terms_cons. f_equal; lia.
Qed.

Lemma boneh_cons c cs :
  (foldl boneh_step (0, 0) (c :: cs)).1 =
  hechrachi_of c * (1 + Z.of_nat (length cs)) + (foldl boneh_step (0, 0) cs).1.
Proof.
  cbn [foldl]. unfold boneh_step at 2. cbn [fst snd]. fold (hechrachi_of c).
  rewrite boneh_shift. cbn [fst]. lia.
Qed.

Lemma boneh_running cs :
  (foldl boneh_step (0, 0) cs).2 = sum_terms hechrachi_of cs.
Proof. rewrite boneh_shift. cbn [snd]. lia. Qed.

Lemma hechrachi_of_nonneg c : 0 ≤ hechrachi_of c.
Proof. apply nonneg_table_get, HECHRACHI_nonneg. Qed.

Lemma sum_hechrachi_nonneg cs : 0 ≤ sum_terms hechrachi_of cs.
Proof.
  pose proof (sum_terms_lower hechrachi_of cs 0) as H.
  rewrite Z.mul_0_l in H. apply H, Forall_forall. intros c _.
  apply hechrachi_of_nonneg.
Qed.

Lemma boneh_bounds cs :
  sum_terms hechrachi_of cs ≤ (foldl boneh_step (0, 0) cs).1 ∧
  (foldl boneh_step (0, 0) cs).1
    ≤ Z.of_nat (length cs) * sum_terms hechrachi_of cs.
Proof.
  induction cs as [|c cs [IH1 IH2]].
  - cbn [foldl fst length]. rewrite sum_terms_nil. lia.
  - rewrite boneh_cons, sum_terms_cons. cbn [length].
    pose proof (hechrachi_of_nonneg c). pose proof (sum_hechrachi_nonneg cs).
    split; nia.
Qed.

Lemma boneh_fmap_base cs st :
  foldl boneh_step st (final_to_base <$> cs) = foldl boneh_step st cs.
Proof.
  revert st. induction cs as [|c cs IH]; intros st; [done |].
  rewrite fmap_cons. cbn [foldl]. rewrite IH. f_equal.
  unfold boneh_step. fold (hechrachi_of (final_to_base c)) (hechrachi_of c).
  assert (hechrachi_of (final_to_base c) = hechrachi_of c) as ->; [| done].
  revert c. apply all_chars; [by_compute |].
  intros c Hc. by rewrite (final_to_base_non_hebrew c Hc).
Qed.

Lemma boneh_app s1 s2 :
  mispar_boneh (s1 ++ s2) =
    mispar_boneh s1 + mispar_boneh s2
    + Z.of_nat (length (_strip_non_hebrew s2)) * mispar_hechrachi s1.
Proof.
  unfold mispar_boneh. rewrite strip_app, foldl_app.
  rewrite (surjective_pairing (foldl boneh_step (0, 0) (_strip_non_hebrew s1))).
  rewrite boneh_shift, boneh_running, hechrachi_sum. cbn [fst]. lia.
Qed.

(** X1. Mispar Boneh is not additive over concatenation: the second part is
    scanned with the running total of the first already built, so every one
    of its letters adds the Hechrachi value of the first part once more.
    The result lies between the Hechrachi value and that value times the
    number of letters. *)
Theorem boneh_concat (s1 s2 : list N) :
  mispar_boneh (s1 ++ s2) =
    mispar_boneh s1 + mispar_boneh s2
    + Z.of_nat (length (_strip_non_hebrew s2)) * mispar_hechrachi s1 ∧
  mispar_hechrachi s1 ≤ mispar_boneh s1 ∧
  mispar_boneh s1 ≤ Z.of_nat (length (_strip_non_hebrew s1)) * mispar_hechrachi s1.
Proof.
  split; [apply boneh_app |].
  rewrite hechrachi_sum. unfold mispar_boneh. apply boneh_bounds.
Qed.

(** X2. Every catalog method but Boneh is additive: the value of a
    concatenation is the sum of the values of its parts. *)
Theorem methods_additive (s1 s2 : list N) :
  Forall (fun e : string * method =>
            e.1 ≠ "boneh"%string →
            ∃ n1 n2, call1 e.2 s1 = Ok n1 ∧ call1 e.2 s2 = Ok n2 ∧
                     call1 e.2 (s1 ++ s2) = Ok (n1 + n2))
         ADDITIVE_METHODS.
Proof.
  eapply Forall_impl; [apply letter_sum_form |].
  intros e H Hne. destruct (H Hne) as (f & Hf & _).
  exists (sum_terms f (_strip_non_hebrew s1)), (sum_terms f (_strip_non_hebrew s2)).
  by rewrite !Hf, strip_app, sum_terms_app.
Qed.

(** X3. Every catalog method but Boneh gives two strings that are
    rearrangements of each other the same value. *)
Theorem methods_ignore_order (s1 s2 : list N) :
  Permutation s1 s2 →
  Forall (fun e : string * method =>
            e.1 ≠ "boneh"%string → call1 e.2 s1 = call1 e.2 s2)
         ADDITIVE_METHODS.
Proof.
  intros Hp. eapply Forall_impl; [apply letter_sum_form |].
  intros e H Hne. destruct (H Hne) as (f & Hf & _).
  rewrite !Hf. f_equal. by apply sum_terms_Permutation, strip_Permutation.
Qed.

Lemma methods_ignore_order_witness :
  Permutation [alef; bet; 0x20%N; final_kaf] [final_kaf; alef; 0x20%N; bet] ∧
  Forall (fun e : string * method =>
            e.1 ≠ "boneh"%string →
            call1 e.2 [alef; bet; 0x20%N; final_kaf]
            = call1 e.2 [final_kaf; alef; 0x20%N; bet])
         ADDITIVE_METHODS ∧
  mispar_boneh [alef; bet] ≠ mispar_boneh [bet; alef].
Proof.
  assert (H : Permutation [alef; bet; 0x20%N; final_kaf]
                          [final_kaf; alef; 0x20%N; bet]).
  { apply (Permutation_cons_app [final_kaf] [0x20%N; bet] alef).
    apply (Permutation_cons_app [final_kaf; 0x20%N] [] bet).
    apply (Permutation_cons_app [final_kaf] [] 0x20%N).
    reflexivity. }
  split; [exact H |]. split; [exact (methods_ignore_order _ _ H) |].
  vm_compute. discriminate.
Defined.

(** X4. Every Hebrew letter adds at least 1 to every catalog method: the
    result is at least the number of letters that pass the filter, so a
    method returns 0 only on a string with no Hebrew letter. *)
Theorem methods_count_letters (s : list N) :
  Forall (fun e : string * method =>
            ∃ n, call1 e.2 s = Ok n ∧
                 Z.of_nat (length (_strip_non_hebrew s)) ≤ n ∧
                 (n = 0 → Forall (fun c => ¬ hebrew c) s))
         ADDITIVE_METHODS.
Proof.
  assert (∀ n, Z.of_nat (length (_strip_non_hebrew s)) ≤ n → n = 0 →
               Forall (fun c => ¬ hebrew c) s) as Hzero.
  { intros n Hle ->. apply strip_nil_inv.
    destruct (_strip_non_hebrew s); [done | cbn [length] in Hle; lia]. }
  apply Forall_forall. intros e He.
  destruct (decide (e.1 = "boneh"%string)) as [Hb|Hne].
  - pose proof boneh_entry as Hentry. rewrite Forall_forall in Hentry.
    rewrite (Hentry e He Hb). cbn [call1 pure1].
    exists (mispar_boneh s). split; [done |].
    assert (Z.of_nat (length (_strip_non_hebrew s)) ≤ mispar_boneh s) as Hle.
    { etrans; [| apply boneh_bounds].
      pose proof (sum_terms_lower hechrachi_of (_strip_non_hebrew s) 1) as H.
      rewrite Z.mul_1_l in H. apply H, strip_Forall. by_compute. }
    split; [exact Hle | by apply Hzero].
  - pose proof letter_sum_form as Hform. rewrite Forall_forall in Hform.
    destruct (Hform e He Hne) as (f & Hf & Hone & _).
    exists (sum_terms f (_strip_non_hebrew s)). split; [apply Hf |].
    assert (Z.of_nat (length (_strip_non_hebrew s))
            ≤ sum_terms f (_strip_non_hebrew s)) as Hle.
    { pose proof (sum_terms_lower f (_strip_non_hebrew s) 1) as H.
      rewrite Z.mul_1_l in H. by apply H, strip_Forall. }
    split; [exact Hle | by apply Hzero].
Qed.

(** X5. Replacing every final form by its base letter changes the result of
    no catalog method other than Gadol, which scores the five finals 500 to
    900. *)
Theorem methods_ignore_final_forms (s : list N) :
  Forall (fun e : string * method =>
            e.1 ≠ "gadol"%string →
            call1 e.2 (final_to_base <$> s) = call1 e.2 s)
         ADDITIVE_METHODS ∧
  Forall (fun fb : N * N => mispar_gadol [fb.2] < 500 ≤ mispar_gadol [fb.1])
         final_forms.
Proof.
  split; [| by_compute].
  apply Forall_forall. intros e He Hg.
  destruct (decide (e.1 = "boneh"%string)) as [Hb|Hne].
  - pose proof boneh_entry as Hentry. rewrite Forall_forall in Hentry.
    rewrite (Hentry e He Hb). cbn [call1 pure1]. f_equal.
    unfold mispar_boneh. by rewrite strip_fmap_base, boneh_fmap_base.
  - pose proof letter_sum_form as Hform. rewrite Forall_forall in Hform.
    destruct (Hform e He Hne) as (f & Hf & _ & Hbase).
    rewrite !Hf, strip_fmap_base, sum_terms_fmap. f_equal.
    apply sum_terms_ext, strip_Forall. by apply Hbase.
Qed.

(** ** Relations between the scoring tables *)

Lemma is_final_hebrew c : is_final c = true → hebrew c.
Proof.
  unfold is_final. rewrite bool_decide_eq_true. intros Hin.
  apply list_elem_of_In in Hin. cbn [In] in Hin.
  unfold hebrew. unfold_letters. lia.
Qed.

Lemma is_final_non_hebrew c : ¬ hebrew c → is_final c = false.
Proof.
  intros Hc. destruct (is_final c) eqn:E; [| done].
  by apply is_final_hebrew in E.
Qed.

Lemma gadol_above_hechrachi c :
  hechrachi_of c ≤ gadol_of c ∧
  (gadol_of c = hechrachi_of c ↔ is_final c = false).
Proof.
  revert c. apply all_chars; [by_compute |].
  intros c Hc.
  rewrite (gadol_of_non_hebrew c Hc), (hechrachi_of_non_hebrew c Hc),
    (is_final_non_hebrew c Hc).
  done.
Qed.

Lemma sum_terms_eq_inv f g cs :
  Forall (fun c => f c ≤ g c) cs →
  sum_terms f cs = sum_terms g cs → Forall (fun c => f c = g c) cs.
Proof.
  induction 1 as [|c cs Hc Hcs IH]; [intros _; apply Forall_nil_2 |].
  rewrite !sum_terms_cons. intros Heq.
  pose proof (sum_terms_le f g cs Hcs) as Hle.
  apply Forall_cons_2; [lia | apply IH; lia].
Qed.

(** X6. Mispar Gadol is never below Mispar Hechrachi, and the two agree
    exactly on the strings that hold no final form. *)
Theorem gadol_vs_hechrachi (s : list N) :
  mispar_hechrachi s ≤ mispar_gadol s ∧
  (mispar_gadol s = mispar_hechrachi s ↔
   Forall (fun c => is_final c = false) s).
Proof.
  rewrite hechrachi_sum_all, gadol_sum_all.
  assert (Forall (fun c => hechrachi_of c ≤ gadol_of c) s) as Hle.
  { apply Forall_forall. intros c _. apply gadol_above_hechrachi. }
  split; [by apply sum_terms_le |]. split.
  - intros Heq. symmetry in Heq.
    eapply Forall_impl; [apply (sum_terms_eq_inv _ _ _ Hle Heq) |].
    intros c Hc. cbv beta in Hc. by apply gadol_above_hechrachi.
  - intros Hnf. apply sum_terms_ext.
    eapply Forall_impl; [exact Hnf |].
    intros c Hc. by apply gadol_above_hechrachi.
Qed.

Lemma sum_terms_mod9 f g cs :
  Forall (fun c => f c `mod` 9 = g c `mod` 9) cs →
  sum_terms f cs `mod` 9 = sum_terms g cs `mod` 9.
Proof.
  induction 1 as [|c cs Hc _ IH]; [done |].
  rewrite !sum_terms_cons.
  rewrite (Z.add_mod (f c) _ 9), (Z.add_mod (g c) _ 9) by lia.
  by rewrite Hc, IH.
Qed.

(** X7. The Katan table holds, for each of the 27 letters, the standard
    value reduced modulo 9 with 0 written as 9; so Mispar Katan is congruent
    to Mispar Hechrachi modulo 9, and lies between the number of letters and
    nine times that number. *)
Theorem katan_is_hechrachi_mod_9 (s : list N) :
  Forall (fun c => _KATAN !! c = Some ((hechrachi_of c - 1) `mod` 9 + 1))
         hebrew_block ∧
  mispar_katan s `mod` 9 = mispar_hechrachi s `mod` 9 ∧
  Z.of_nat (length (_strip_non_hebrew s)) ≤ mispar_katan s
    ≤ 9 * Z.of_nat (length (_strip_non_hebrew s)).
Proof.
  split; [by_compute |]. rewrite hechrachi_sum.
  unfold mispar_katan, _apply_table.
  fold (sum_terms (fun c => default 0 (_KATAN !! c))). split.
  - apply sum_terms_mod9, strip_Forall. by_compute.
  - split.
    + pose proof (sum_terms_lower (fun c => default 0 (_KATAN !! c))
                    (_strip_non_hebrew s) 1) as H.
      rewrite Z.mul_1_l in H. apply H, strip_Forall. by_compute.
    + apply sum_terms_upper, strip_Forall. by_compute.
Qed.

(** X8. The table built for Kidmi holds, for the i-th letter of the
    alphabet, the total of the standard values of the first i letters; it
    grows along the alphabet, a final form is looked up under its base
    letter, and Mispar Kidmi is never below Mispar Hechrachi. *)
Theorem kidmi_cumulative (s : list N) :
  Forall (fun i => _CUM_SUM_HECHRACHI !! item _ORDERED_LETTERS i
                   = Some (sum_terms hechrachi_of (take (S i) _ORDERED_LETTERS)))
         (seq 0 22) ∧
  Forall (fun i => default 0 (_CUM_SUM_HECHRACHI !! item _ORDERED_LETTERS i)
                   < default 0 (_CUM_SUM_HECHRACHI !! item _ORDERED_LETTERS (S i)))
         (seq 0 21) ∧
  Forall (fun fb : N * N => mispar_kidmi [fb.1] = mispar_kidmi [fb.2])
         final_forms ∧
  mispar_hechrachi s ≤ mispar_kidmi s.
Proof.
  split; [by_compute |]. split; [by_compute |]. split; [by_compute |].
  rewrite hechrachi_sum. unfold mispar_kidmi.
  fold (sum_terms (fun c => default 0 (_CUM_SUM_HECHRACHI !! final_to_base c))).
  apply sum_terms_le, strip_Forall. by_compute.
Qed.

Lemma sum_squares_le f cs :
  Forall (fun c => 0 ≤ f c) cs →
  0 ≤ sum_terms f cs ∧ sum_terms (fun c => f c ^ 2) cs ≤ sum_terms f cs ^ 2.
Proof.
  induction 1 as [|c cs Hc _ [IH0 IH]]; [by cbn |].
  rewrite !sum_terms_cons. cbv beta. split; [lia | nia].
Qed.

(** X9. The sum of squares and the sum of cubes never raise; the Hechrachi
    value is at most the sum of squares, which is at most the sum of cubes
    and at most the square of the Hechrachi value. *)
Theorem perati_meshulash_order (s : list N) :
  ∃ p m, mispar_perati s = Ok p ∧ mispar_meshulash s = Ok m ∧
         mispar_hechrachi s ≤ p ∧ p ≤ m ∧ p ≤ mispar_hechrachi s ^ 2.
Proof.
  exists (sum_terms (fun c => hechrachi_of c ^ 2) (_strip_non_hebrew s)),
         (sum_terms (fun c => hechrachi_of c ^ 3) (_strip_non_hebrew s)).
  unfold mispar_perati, mispar_meshulash.
  rewrite !power_sum by apply strip_all_hebrew. rewrite hechrachi_sum.
  split; [done |]. split; [done |]. split; [| split].
  - apply sum_terms_le, strip_Forall. by_compute.
  - apply sum_terms_le, strip_Forall. by_compute.
  - apply sum_squares_le, Forall_forall. intros c _. apply hechrachi_of_nonneg.
Qed.

(** ** The name-expansion methods *)

Lemma sum_terms_add f g cs :
  sum_terms (fun c => f c + g c) cs = sum_terms f cs + sum_terms g cs.
Proof.
  induction cs as [|c cs IH]; [done |]. rewrite !sum_terms_cons, IH. lia.
Qed.

Lemma hechrachi_app a b :
  mispar_hechrachi (a ++ b) = mispar_hechrachi a + mispar_hechrachi b.
Proof. by rewrite !hechrachi_sum_all, sum_terms_app. Qed.

Lemma neelam_term_le_shemi names c : neelam_term names c ≤ shemi_term names c.
Proof.
  unfold neelam_term, shemi_term.
  destruct (default [] (names !! c)) as [|x [|y name]]; cbn [length Nat.ltb Nat.leb drop].
  - done.
  - apply mispar_hechrachi_nonneg.
  - change (x :: y :: name) with ([x] ++ y :: name). rewrite hechrachi_app.
    pose proof (mispar_hechrachi_nonneg [x]). lia.
Qed.

Lemma ofanim_term_le_shemi names c : ofanim_term names c ≤ shemi_term names c.
Proof.
  unfold ofanim_term, shemi_term.
  destruct (last (default [] (names !! c))) as [l|] eqn:E.
  - apply last_Some in E as [init ->]. rewrite hechrachi_app.
    pose proof (mispar_hechrachi_nonneg init). lia.
  - apply mispar_hechrachi_nonneg.
Qed.

(** X10. For any letter-name table Ne'elam and Ofanim are at most Shemi.
    With the default names, whose first letter is the letter itself and
    which have at least two letters, Shemi is Hechrachi plus Ne'elam, and
    Ofanim is at most Ne'elam. *)
Theorem name_methods_order (names : gmap N (list N)) (s : list N) :
  mispar_neelam s (Some names) ≤ mispar_shemi s (Some names) ∧
  (∃ n, ofanim_value s (Some names) = Ok n ∧ n ≤ mispar_shemi s (Some names)) ∧
  mispar_shemi s None = mispar_hechrachi s + mispar_neelam s None ∧
  (∃ n, ofanim_value s None = Ok n ∧ n ≤ mispar_neelam s None).
Proof.
  split; [| split; [| split]].
  - unfold mispar_neelam, mispar_shemi. cbn [names_or_default].
    apply (sum_terms_le (neelam_term names) (shemi_term names)).
    apply Forall_forall. intros c _. apply neelam_term_le_shemi.
  - exists (sum_terms (ofanim_term names) (_strip_non_hebrew s)). split.
    + unfold ofanim_value. cbn [names_or_default].
      rewrite ofanim_loop_sum. f_equal.
    + unfold mispar_shemi. cbn [names_or_default].
      apply (sum_terms_le (ofanim_term names) (shemi_term names)).
      apply Forall_forall. intros c _. apply ofanim_term_le_shemi.
  - rewrite hechrachi_sum. unfold mispar_shemi, mispar_neelam.
    cbn [names_or_default].
    fold (sum_terms (shemi_term DEFAULT_LETTER_NAMES) (_strip_non_hebrew s)).
    fold (sum_terms (neelam_term DEFAULT_LETTER_NAMES) (_strip_non_hebrew s)).
    rewrite <- sum_terms_add. apply sum_terms_ext, strip_Forall. by_compute.
  - exists (sum_terms (ofanim_term DEFAULT_LETTER_NAMES) (_strip_non_hebrew s)).
    split.
    + unfold ofanim_value. cbn [names_or_default].
      rewrite ofanim_loop_sum. f_equal.
    + unfold mispar_neelam. cbn [names_or_default].
      apply (sum_terms_le (ofanim_term DEFAULT_LETTER_NAMES)
                          (neelam_term DEFAULT_LETTER_NAMES)).
      apply strip_Forall. by_compute.
Qed.

(** ** The ciphers on strings *)

Lemma final_to_base_not_final c : is_final (final_to_base c) = false.
Proof.
  revert c. apply all_chars; [by_compute |].
  intros c Hc. rewrite (final_to_base_non_hebrew c Hc).
  by apply is_final_non_hebrew.
Qed.

Lemma hechrachi_of_base c : hechrachi_of (final_to_base c) = hechrachi_of c.
Proof.
  revert c. apply all_chars; [by_compute |].
  intros c Hc. by rewrite (final_to_base_non_hebrew c Hc).
Qed.

Section Composition.
Variables m1 m2 m3 : gmap N N.
Hypothesis keys1 : hebrew_keys m1.
Hypothesis keys2 : hebrew_keys m2.
Hypothesis keys3 : hebrew_keys m3.

Lemma transform_twice s :
  Forall (fun c => transform_char m2 (transform_char m1 c) = final_to_base c)
         hebrew_block →
  _transform (_transform s m1) m2 = final_to_base <$> s.
Proof.
  intros Hb. unfold _transform. rewrite <- list_fmap_compose.
  apply list_fmap_ext. intros i c _. unfold compose. revert c.
  apply all_chars; [exact Hb |].
  intros c Hc. rewrite (transform_char_non_hebrew m1 c keys1 Hc).
  rewrite (transform_char_non_hebrew m2 c keys2 Hc).
  by rewrite (final_to_base_non_hebrew c Hc).
Qed.

Lemma transform_thrice s :
  Forall (fun c => transform_char m3 (transform_char m2 (transform_char m1 c))
                   = final_to_base c) hebrew_block →
  _transform (_transform (_transform s m1) m2) m3 = final_to_base <$> s.
Proof.
  intros Hb. unfold _transform. rewrite <- !list_fmap_compose.
  apply list_fmap_ext. intros i c _. unfold compose. revert c.
  apply all_chars; [exact Hb |].
  intros c Hc. rewrite (transform_char_non_hebrew m1 c keys1 Hc).
  rewrite (transform_char_non_hebrew m2 c keys2 Hc).
  rewrite (transform_char_non_hebrew m3 c keys3 Hc).
  by rewrite (final_to_base_non_hebrew c Hc).
Qed.

(** Scoring, under the second cipher, the output of the first. *)
Lemma cipher_value_round_trip s :
  Forall (fun c => transform_char m2 (transform_char m1 c) = final_to_base c)
         hebrew_block →
  mispar_hechrachi (_transform (_strip_non_hebrew (_transform s m1)) m2)
  = mispar_hechrachi s.
Proof.
  intros Hb. rewrite cipher_hechrachi_sum.
  rewrite (sum_terms_strip (fun c => hechrachi_of (transform_char m2 c))).
  - unfold _transform. rewrite sum_terms_fmap, hechrachi_sum_all.
    apply sum_terms_ext, Forall_forall. intros c _. cbv beta.
    rewrite <- (hechrachi_of_base c). f_equal. revert c.
    apply all_chars; [exact Hb |].
    intros c Hc. rewrite (transform_char_non_hebrew m1 c keys1 Hc).
    rewrite (transform_char_non_hebrew m2 c keys2 Hc).
    by rewrite (final_to_base_non_hebrew c Hc).
  - intros c Hc. rewrite (transform_char_non_hebrew m2 c keys2 Hc).
    by apply hechrachi_of_non_hebrew.
Qed.
End Composition.

Lemma ATBASH_keys : hebrew_keys _ATBASH_MAP.
Proof. by_compute. Qed.
Lemma ALBAM_keys : hebrew_keys _ALBAM_MAP.
Proof. by_compute. Qed.
Lemma ACHBI_keys : hebrew_keys _ACHBI_MAP.
Proof. by_compute. Qed.
Lemma ACHAS_BETA_keys : hebrew_keys _ACHAS_BETA_MAP.
Proof. by_compute. Qed.
Lemma AVGAD_keys : hebrew_keys _AVGAD_MAP.
Proof. by_compute. Qed.
Lemma REV_AVGAD_keys : hebrew_keys _REV_AVGAD_MAP.
Proof. by_compute. Qed.

(** X11. Atbash, Albam and AchBi undo themselves on whole strings: applied
    twice, [_transform] returns the string with its final forms replaced by
    base letters and every other character kept; hence the cipher value of a
    cipher text is the Hechrachi value of the plain text. *)
Theorem self_inverse_ciphers (s : list N) :
  _transform (_transform s _ATBASH_MAP) _ATBASH_MAP = final_to_base <$> s ∧
  _transform (_transform s _ALBAM_MAP) _ALBAM_MAP = final_to_base <$> s ∧
  _transform (_transform s _ACHBI_MAP) _ACHBI_MAP = final_to_base <$> s ∧
  atbash_value (_transform s _ATBASH_MAP) = mispar_hechrachi s ∧
  albam_value (_transform s _ALBAM_MAP) = mispar_hechrachi s ∧
  achbi_value (_transform s _ACHBI_MAP) = mispar_hechrachi s.
Proof.
  repeat split.
  - apply transform_twice; [apply ATBASH_keys .. | by_compute].
  - apply transform_twice; [apply ALBAM_keys .. | by_compute].
  - apply transform_twice; [apply ACHBI_keys .. | by_compute].
  - apply cipher_value_round_trip; [apply ATBASH_keys .. | by_compute].
  - apply cipher_value_round_trip; [apply ALBAM_keys .. | by_compute].
  - apply cipher_value_round_trip; [apply ACHBI_keys .. | by_compute].
Qed.

(** X12. Avgad and Reverse Avgad undo each other on whole strings, in both
    orders, up to the replacement of final forms by base letters; the
    Reverse Avgad value of an Avgad text, and the Avgad value of a Reverse
    Avgad text, is the Hechrachi value of the plain text. *)
Theorem avgad_round_trip (s : list N) :
  _transform (_transform s _AVGAD_MAP) _REV_AVGAD_MAP = final_to_base <$> s ∧
  _transform (_transform s _REV_AVGAD_MAP) _AVGAD_MAP = final_to_base <$> s ∧
  reverse_avgad_value (_transform s _AVGAD_MAP) = mispar_hechrachi s ∧
  avgad_value (_transform s _REV_AVGAD_MAP) = mispar_hechrachi s.
Proof.
  repeat split.
  - apply transform_twice; [apply AVGAD_keys | apply REV_AVGAD_keys | by_compute].
  - apply transform_twice; [apply REV_AVGAD_keys | apply AVGAD_keys | by_compute].
  - apply cipher_value_round_trip;
      [apply AVGAD_keys | apply REV_AVGAD_keys | by_compute].
  - apply cipher_value_round_trip;
      [apply REV_AVGAD_keys | apply AVGAD_keys | by_compute].
Qed.

(** X13. Achas Beta has order three on strings: applied three times,
    [_transform] returns the string with its final forms replaced by base
    letters, while one application and two applications each move every
    base letter but tav, which is fixed; the images of the 22 base letters
    are pairwise distinct. *)
Theorem achas_beta_order_three (s : list N) :
  _transform (_transform (_transform s _ACHAS_BETA_MAP) _ACHAS_BETA_MAP)
             _ACHAS_BETA_MAP
  = final_to_base <$> s ∧
  NoDup (_transform _ORDERED_LETTERS _ACHAS_BETA_MAP) ∧
  _transform [tav] _ACHAS_BETA_MAP = [tav] ∧
  Forall (fun c =>
            c ≠ tav →
            _transform [c] _ACHAS_BETA_MAP ≠ [c] ∧
            _transform (_transform [c] _ACHAS_BETA_MAP) _ACHAS_BETA_MAP ≠ [c])
         _ORDERED_LETTERS.
Proof.
  split; [| split; [by_compute | split; [by vm_compute | by_compute]]].
  apply transform_thrice; [apply ACHAS_BETA_keys .. | by_compute].
Qed.

Lemma transform_char_insert_final mapping k x c :
  is_final k = true →
  transform_char (<[k := x]> mapping) c = transform_char mapping c.
Proof.
  intros Hk. unfold transform_char. rewrite lookup_insert_ne; [done |].
  intros ->. by rewrite final_to_base_not_final in Hk.
Qed.

Lemma transform_char_delete_final mapping k c :
  is_final k = true →
  transform_char (delete k mapping) c = transform_char mapping c.
Proof.
  intros Hk. unfold transform_char. rewrite lookup_delete_ne; [done |].
  intros ->. by rewrite final_to_base_not_final in Hk.
Qed.

(** X14. [_transform] never looks a final form up: it normalises first, so
    an entry stored under a final-form key, as the AtBach and Ayak Bachar
    tables hold five each, has no effect on any output. *)
Theorem final_keys_never_consulted (mapping : gmap N N) (k x : N) (s : list N) :
  is_final k = true →
  _transform s (<[k := x]> mapping) = _transform s mapping ∧
  _transform s (delete k mapping) = _transform s mapping.
Proof.
  intros Hk. unfold _transform. split; apply list_fmap_ext; intros i c _.
  - by apply transform_char_insert_final.
  - by apply transform_char_delete_final.
Qed.

Lemma final_keys_never_consulted_witness :
  is_final final_pe = true ∧
  is_Some (_ATBACH_MAP !! final_pe) ∧
  _transform [resh; final_pe; pe] (delete final_pe _ATBACH_MAP)
  = _transform [resh; final_pe; pe] _ATBACH_MAP.
Proof.
  assert (H : is_final final_pe = true) by (vm_compute; reflexivity).
  split; [exact H |]. split; [by_compute |].
  exact (proj2 (final_keys_never_consulted _ATBACH_MAP final_pe alef
                  [resh; final_pe; pe] H)).
Defined.

(** X15. As tables over the 27 symbols AtBach is an involution and Ayak
    Bachar has order three.  Applied by [_transform], AtBach returns a base
    letter after two rounds exactly when the letter is not one of qof, resh,
    shin, tav, whose images are final forms that the second round
    normalises. *)
Theorem atbach_ayak_tables :
  Forall (fun x => (_ATBACH_MAP !! x ≫= (_ATBACH_MAP !!.)) = Some x)
         _ATBACH_SEQ ∧
  Forall (fun x => ((_AYAK_MAP !! x ≫= (_AYAK_MAP !!.)) ≫= (_AYAK_MAP !!.))
                   = Some x) _ATBACH_SEQ ∧
  Forall (fun c => transform_char _ATBACH_MAP (transform_char _ATBACH_MAP c) = c
                   ↔ c ∉ [qof; resh; shin; tav]) _ORDERED_LETTERS.
Proof. split; [by_compute |]. split; by_compute. Qed.

(** X16. On the filtered letters of any string the six ciphers over the
    22-letter alphabet put out base letters only, while AtBach and Ayak
    Bachar put out symbols of the 27-symbol sequence; no output character is
    dropped by the filter of the scoring method. *)
Theorem cipher_outputs (s : list N) :
  Forall (fun mapping =>
            Forall (fun c => c ∈ _ORDERED_LETTERS)
                   (_transform (_strip_non_hebrew s) mapping))
         base_ciphers ∧
  Forall (fun mapping =>
            Forall (fun c => c ∈ _ATBACH_SEQ)
                   (_transform (_strip_non_hebrew s) mapping) ∧
            _strip_non_hebrew (_transform (_strip_non_hebrew s) mapping)
            = _transform (_strip_non_hebrew s) mapping)
         all_ciphers.
Proof.
  assert (∀ mapping (P : N → Prop),
            Forall (fun c => P (transform_char mapping c)) hebrew_block →
            Forall P (_transform (_strip_non_hebrew s) mapping)) as Hout.
  { intros mapping P HP. unfold _transform. apply Forall_fmap.
    by apply (strip_Forall (fun c => P (transform_char mapping c))). }
  assert (∀ cs, Forall (fun c => c ∈ _ATBACH_SEQ) cs → _strip_non_hebrew cs = cs)
    as Hkeep.
  { intros cs Hcs. induction Hcs as [|c cs Hc _ IH]; [done |].
    rewrite strip_cons, IH.
    assert (in_table _HECHRACHI c = true) as ->; [| done].
    revert c Hc. apply Forall_forall. by_compute. }
  split.
  - unfold base_ciphers.
    repeat (apply Forall_cons_2; [apply Hout; by_compute |]). apply Forall_nil_2.
  - unfold all_ciphers.
    assert (∀ mapping,
              Forall (fun c => transform_char mapping c ∈ _ATBACH_SEQ)
                     hebrew_block →
              Forall (fun c => c ∈ _ATBACH_SEQ)
                     (_transform (_strip_non_hebrew s) mapping) ∧
              _strip_non_hebrew (_transform (_strip_non_hebrew s) mapping)
              = _transform (_strip_non_hebrew s) mapping) as Hall.
    { intros mapping Hm.
      pose proof (Hout mapping (fun c => c ∈ _ATBACH_SEQ) Hm) as H.
      split; [exact H | by apply Hkeep]. }
    repeat (apply Forall_cons_2; [apply Hall; by_compute |]).
    apply Forall_nil_2.
Qed.

(** * Further properties of the builder *)

(** ** The filters *)

Lemma filter_filter_and {A} (f g : A → bool) (l : list A) :
  List.filter f (List.filter g l) = List.filter (fun x => g x && f x) l.
Proof.
  induction l as [|x l IH]; [done |]. cbn [List.filter].
  destruct (g x); cbn [andb List.filter]; [| exact IH].
  destruct (f x); by rewrite IH.
Qed.

Lemma filter_pointwise {A} (f g : A → bool) (l : list A) :
  (∀ x, f x = g x) → List.filter f l = List.filter g l.
Proof.
  intros H. induction l as [|x l IH]; [done |]. cbn [List.filter].
  by rewrite H, IH.
Qed.

Lemma filter_all {A} (f : A → bool) (l : list A) :
  Forall (fun x => f x = true) l → List.filter f l = l.
Proof.
  induction 1 as [|x l Hx _ IH]; [done |]. cbn [List.filter].
  by rewrite Hx, IH.
Qed.


Lemma filter_holds {A} (f : A → bool) (l : list A) :
  Forall (fun x => f x = true) (List.filter f l).
Proof.
  induction l as [|x l IH]; [apply Forall_nil_2 |]. cbn [List.filter].
  destruct (f x) eqn:E; [by apply Forall_cons_2 | done].
Qed.

Lemma filter_concat {A} (f : A → bool) (ls : list (list A)) :
  List.filter f (concat ls) = concat (List.filter f <$> ls).
Proof.
  induction ls as [|l ls IH]; [done |].
  cbn [concat]. rewrite fmap_cons. cbn [concat].
  by rewrite List.filter_app, IH.
Qed.

Lemma in_letter_range c :
  ((0x5D0 <=? c) && (c <=? 0x5EA))%N = in_table _HECHRACHI c.
Proof.
  destruct (in_table _HECHRACHI c) eqn:E.
  - apply in_table_hebrew in E as [H1 H2].
    apply andb_true_intro. split; by apply N.leb_le.
  - destruct ((0x5D0 <=? c) && (c <=? 0x5EA))%N eqn:E'; [| done].
    apply andb_prop in E' as [H1%N.leb_le H2%N.leb_le].
    assert (hebrew c) as Hc by done. apply in_table_hebrew in Hc. congruence.
Qed.

Lemma letters_only_strip s : letters_only s = _strip_non_hebrew s.
Proof. apply filter_pointwise, in_letter_range. Qed.

(** X17. The filter of the engine and [letters_only] of the builder keep the
    same characters, the 27 code points U+05D0..U+05EA.  [letters_only] and
    [remove_diacritics] are idempotent and commute, removing the marks first
    loses no letter, and a method gives the letters-only copy of a string
    the value it gives the string. *)
Theorem normalisation_filters (s : list N) :
  _strip_non_hebrew s = letters_only s ∧
  letters_only (letters_only s) = letters_only s ∧
  remove_diacritics (remove_diacritics s) = remove_diacritics s ∧
  letters_only (remove_diacritics s) = letters_only s ∧
  remove_diacritics (letters_only s) = letters_only s ∧
  Forall (fun e : string * method => call1 e.2 (letters_only s) = call1 e.2 s)
         ADDITIVE_METHODS.
Proof.
  split; [by rewrite letters_only_strip |].
  split; [by rewrite !letters_only_strip, strip_idemp |].
  split.
  { unfold remove_diacritics. rewrite filter_filter_and.
    apply filter_pointwise. intros c. by destruct (negb _). }
  split.
  { unfold letters_only, remove_diacritics. rewrite filter_filter_and.
    apply filter_pointwise. intros c.
    destruct (N.leb_spec 0x5D0 c), (N.leb_spec c 0x5EA),
      (N.leb_spec 0x591 c), (N.leb_spec c 0x5C7); cbn; try done; lia. }
  split.
  { unfold remove_diacritics. apply filter_all.
    eapply Forall_impl; [apply (filter_holds _ s) |].
    intros c Hc. cbv beta in *.
    destruct (N.leb_spec 0x5D0 c), (N.leb_spec c 0x5EA),
      (N.leb_spec 0x591 c), (N.leb_spec c 0x5C7); cbn in *; try done; lia. }
  assert (_strip_non_hebrew (letters_only s) = _strip_non_hebrew s) as E
    by (rewrite letters_only_strip; apply strip_idemp).
  each_method; unfold_methods; by rewrite E.
Qed.

(** ** Tokens *)

Lemma filter_reverse {A} (f : A → bool) (l : list A) :
  List.filter f (reverse l) = reverse (List.filter f l).
Proof.
  induction l as [|x l IH]; [done |].
  rewrite reverse_cons, List.filter_app, IH. cbn [List.filter].
  destruct (f x); [by rewrite reverse_cons | by rewrite app_nil_r].
Qed.

Lemma concat_nonempty (ls : list (list N)) :
  concat (List.filter (fun w => negb (bool_decide (w = []))) ls) = concat ls.
Proof.
  induction ls as [|l ls IH]; [done |]. cbn [List.filter concat].
  destruct l as [|x l]; [exact IH |].
  rewrite bool_decide_eq_false_2 by done. cbn [negb concat]. by rewrite IH.
Qed.

Section TokenizeFacts.
Variable isspace : N → bool.

Lemma lstrip_filter (p : N → bool) s :
  (∀ c, isspace c = true → p c = false) →
  List.filter p (lstrip isspace s) = List.filter p s.
Proof.
  intros Hp. induction s as [|c s IH]; [done |]. cbn [lstrip List.filter].
  destruct (isspace c) eqn:E; [| done]. by rewrite (Hp c E).
Qed.

Lemma strip_filter (p : N → bool) s :
  (∀ c, isspace c = true → p c = false) →
  List.filter p (strip isspace s) = List.filter p s.
Proof.
  intros Hp. unfold strip.
  rewrite filter_reverse, lstrip_filter, filter_reverse, reverse_involutive
    by done.
  by apply lstrip_filter.
Qed.

Lemma lstrip_Forall (P : N → Prop) s : Forall P s → Forall P (lstrip isspace s).
Proof.
  induction 1 as [|c s Hc Hs IH]; [done |]. cbn [lstrip].
  destruct (isspace c); [done | by apply Forall_cons_2].
Qed.

Lemma strip_keeps (P : N → Prop) s : Forall P s → Forall P (strip isspace s).
Proof.
  intros H. unfold strip.
  by apply Forall_reverse, lstrip_Forall, Forall_reverse, lstrip_Forall.
Qed.



Lemma re_split_concat s in_run :
  concat (re_split isspace s in_run)
  = List.filter (fun c => negb (is_sep isspace c)) s.
Proof.
  revert in_run. induction s as [|c s IH]; intros in_run; [done |].
  cbn [re_split List.filter]. destruct (is_sep isspace c); cbn [negb].
  - destruct in_run; [apply IH |]. cbn [concat app]. apply IH.
  - specialize (IH false). destruct (re_split isspace s false) as [|w ws].
    + cbn [concat app] in *. by rewrite <- IH.
    + cbn [concat app] in *. by rewrite <- IH.
Qed.

Lemma re_split_Forall (P : N → Prop) s in_run :
  Forall P s → Forall (Forall P) (re_split isspace s in_run).
Proof.
  intros H. revert in_run.
  induction H as [|c s Hc _ IH]; intros in_run; cbn [re_split].
  - apply Forall_cons_2; [apply Forall_nil_2 | apply Forall_nil_2].
  - destruct (is_sep isspace c).
    + destruct in_run; [apply IH |].
      apply Forall_cons_2; [apply Forall_nil_2 | apply IH].
    + specialize (IH false). destruct (re_split isspace s false) as [|w ws].
      * apply Forall_cons_2; [| apply Forall_nil_2].
        apply Forall_cons_2; [done | apply Forall_nil_2].
      * apply Forall_cons_1 in IH as [Hw Hws].
        apply Forall_cons_2; [by apply Forall_cons_2 | done].
Qed.

Lemma re_split_no_sep s in_run :
  Forall (Forall (fun c => is_sep isspace c = false))
         (re_split isspace s in_run).
Proof.
  revert in_run. induction s as [|c s IH]; intros in_run; cbn [re_split].
  - apply Forall_cons_2; [apply Forall_nil_2 | apply Forall_nil_2].
  - destruct (is_sep isspace c) eqn:E.
    + destruct in_run; [apply IH |].
      apply Forall_cons_2; [apply Forall_nil_2 | apply IH].
    + specialize (IH false). destruct (re_split isspace s false) as [|w ws].
      * apply Forall_cons_2; [| apply Forall_nil_2].
        apply Forall_cons_2; [done | apply Forall_nil_2].
      * apply Forall_cons_1 in IH as [Hw Hws].
        apply Forall_cons_2; [by apply Forall_cons_2 | done].
Qed.


Lemma tokenize_concat verse :
  concat (tokenize isspace verse)
  = List.filter (fun c => negb (is_sep isspace c) && negb (c =? sof_pasuq)%N)
                verse.
Proof.
  unfold tokenize. rewrite concat_nonempty, re_split_concat, strip_filter.
  - rewrite filter_filter_and. apply filter_pointwise. intros c.
    apply andb_comm.
  - intros c Hc. unfold is_sep. by rewrite Hc.
Qed.

(** X18. The tokens of a verse are non-empty, hold no whitespace, no maqaf
    and no sof pasuq, and joined in order they are the verse with exactly
    those characters deleted. *)
Theorem tokenize_spec (verse : list N) :
  concat (tokenize isspace verse)
  = List.filter (fun c => negb (is_sep isspace c) && negb (c =? sof_pasuq)%N)
                verse ∧
  Forall (fun w => w ≠ [] ∧
                   Forall (fun c => isspace c = false ∧ c ≠ maqaf ∧
                                    c ≠ sof_pasuq) w)
         (tokenize isspace verse).
Proof.
  split; [apply tokenize_concat |]. unfold tokenize.
  - apply Forall_forall. intros w Hw.
    apply list_elem_of_In, filter_In in Hw as [Hin Hne].
    apply list_elem_of_In in Hin. split.
    + intros ->. by rewrite bool_decide_eq_true_2 in Hne.
    + set (cleaned := strip isspace
                        (List.filter (fun c => negb (c =? 0x5C3)%N) verse)) in *.
      pose proof (re_split_no_sep cleaned false) as H1.
      assert (Forall (fun c => c ≠ sof_pasuq) cleaned) as H2.
      { apply strip_keeps.
        eapply Forall_impl; [apply filter_holds |].
        intros c Hc. cbv beta in Hc. apply negb_true_iff, N.eqb_neq in Hc.
        exact Hc. }
      apply (re_split_Forall _ cleaned false) in H2.
      rewrite Forall_forall in H1, H2.
      specialize (H1 w Hin). specialize (H2 w Hin).
      apply Forall_forall. intros c Hc.
      rewrite Forall_forall in H1, H2.
      specialize (H1 c Hc). specialize (H2 c Hc).
      unfold is_sep in H1. apply orb_false_elim in H1 as [Hs Hm].
      apply N.eqb_neq in Hm. done.
Qed.

End TokenizeFacts.


(** ** The record of a verse *)

(** A loop of assignments [d[e.1] = u(e, d.get(e.1))] over entries with
    distinct keys. *)
Lemma assign_loop_lookup {A} (u : string * method → option A → A)
    (l : list (string * method)) (d : gmap string A) :
  NoDup (l.*1) →
  (∀ e, e ∈ l →
        foldl (fun d e => <[e.1 := u e (d !! e.1)]> d) d l !! e.1
        = Some (u e (d !! e.1))) ∧
  (∀ k, k ∉ l.*1 →
        foldl (fun d e => <[e.1 := u e (d !! e.1)]> d) d l !! k = d !! k).
Proof.
  revert d. induction l as [|e0 l IH]; intros d Hnd.
  - split; [intros e He; by apply elem_of_nil in He | done].
  - rewrite fmap_cons in Hnd. apply NoDup_cons in Hnd as [Hfresh Hnd].
    cbn [foldl]. destruct (IH (<[e0.1 := u e0 (d !! e0.1)]> d) Hnd) as [IH1 IH2].
    split.
    + intros e He. apply elem_of_cons in He as [-> | He].
      * rewrite (IH2 _ Hfresh). apply lookup_insert_eq.
      * rewrite (IH1 e He). f_equal. f_equal. apply lookup_insert_ne.
        intros Heq. apply Hfresh. rewrite Heq.
        apply list_elem_of_fmap. by exists e.
    + intros k Hk. apply not_elem_of_cons in Hk as [Hne Hk].
      rewrite (IH2 k Hk). by apply lookup_insert_ne.
Qed.

Lemma builder_call_is_call1 :
  Forall (fun e : string * method =>
            ∀ tok, (if takes_names e.1
                    then call2 e.2 tok DEFAULT_LETTER_NAMES
                    else call1 e.2 tok) = call1 e.2 tok)
         ADDITIVE_METHODS.
Proof. each_method; intros tok; reflexivity. Qed.

Lemma call1_value e tok :
  e ∈ ADDITIVE_METHODS → call1 e.2 tok = Ok (method_value e tok).
Proof.
  intros He. pose proof (methods_return tok) as H.
  rewrite Forall_forall in H. destruct (H e He) as (n & Hn & _).
  unfold method_value. by rewrite Hn.
Qed.

Lemma method_step_spec tok st e tot :
  e ∈ ADDITIVE_METHODS → st.2 !! e.1 = Some tot →
  method_step tok st e
  = Ok (<[e.1 := method_value e tok]> st.1,
        <[e.1 := tot + method_value e tok]> st.2).
Proof.
  intros He Ht. pose proof builder_call_is_call1 as Hc.
  rewrite Forall_forall in Hc. specialize (Hc e He tok).
  pose proof (call1_value e tok He) as Hv.
  destruct e as [name m]. unfold method_step. cbn [fst snd] in *.
  rewrite Hc, Hv. cbn [mbind result_bind]. by rewrite Ht.
Qed.

Lemma totals_ready_lookup totals e :
  totals_ready totals → e ∈ ADDITIVE_METHODS → is_Some (totals !! e.1).
Proof.
  intros Hdom He. apply elem_of_dom. rewrite Hdom. apply elem_of_dom.
  pose proof catalog_names_in_totals as H. rewrite Forall_forall in H.
  by apply H.
Qed.

Lemma totals_ready_insert totals k x :
  totals_ready totals → is_Some (totals !! k) →
  totals_ready (<[k := x]> totals).
Proof.
  intros Hdom [y Hy]. unfold totals_ready in *.
  rewrite dom_insert_L, <- Hdom. apply elem_of_dom_2 in Hy.
  apply subseteq_union_1_L. by apply singleton_subseteq_l.
Qed.

Lemma methods_loop_spec tok l st :
  (∀ e, e ∈ l → e ∈ ADDITIVE_METHODS) → totals_ready st.2 →
  foldl_result (method_step tok) st l
  = Ok (foldl (fun d e => <[e.1 := method_value e tok]> d) st.1 l,
        foldl (fun d e => <[e.1 := default 0 (d !! e.1) + method_value e tok]> d)
              st.2 l) ∧
  totals_ready
    (foldl (fun d e => <[e.1 := default 0 (d !! e.1) + method_value e tok]> d)
           st.2 l).
Proof.
  revert st. induction l as [|e l IH]; intros [vals tots] Hsub Hdom;
    cbn [foldl_result foldl fst snd] in *.
  - done.
  - assert (e ∈ ADDITIVE_METHODS) as He by (apply Hsub, list_elem_of_here).
    destruct (totals_ready_lookup tots e Hdom He) as [tot Ht].
    rewrite (method_step_spec tok (vals, tots) e tot He Ht).
    cbn [mbind result_bind fst snd]. rewrite Ht. cbn [default].
    apply (IH (_, _)); cbn [snd].
    + intros e' He'. by apply Hsub, list_elem_of_further.
    + apply totals_ready_insert; [done | by exists tot].
Qed.

Lemma token_step_spec st tok :
  totals_ready st.2 →
  token_step st tok
  = Ok (st.1 ++ [TokenEntry (letters_only tok)
                            (token_values_of (letters_only tok))],
        add_totals st.2 (letters_only tok)) ∧
  totals_ready (add_totals st.2 (letters_only tok)).
Proof.
  intros Hdom. unfold token_step.
  destruct (methods_loop_spec (letters_only tok) ADDITIVE_METHODS
              (∅ : gmap string Z, st.2)) as [E Hready]; [done | done |].
  rewrite E. cbn [mbind result_bind fst snd]. done.
Qed.

Lemma tokens_loop_spec toks st :
  totals_ready st.2 →
  foldl_result token_step st toks
  = Ok (st.1 ++ (token_record <$> toks),
        foldl add_totals st.2 (letters_only <$> toks)).
Proof.
  revert st. induction toks as [|tok toks IH]; intros [entries tots] Hdom;
    cbn [foldl_result fst snd] in *.
  - by rewrite app_nil_r.
  - destruct (token_step_spec (entries, tots) tok Hdom) as [E Hready].
    rewrite E. cbn [mbind result_bind fst snd].
    rewrite (IH (_, _)) by exact Hready. cbn [fst snd].
    rewrite !fmap_cons. cbn [foldl]. by rewrite <- app_assoc.
Qed.

Lemma token_values_lookup lt e :
  e ∈ ADDITIVE_METHODS → token_values_of lt !! e.1 = Some (method_value e lt).
Proof.
  intros He.
  apply (proj1 (assign_loop_lookup (fun e _ => method_value e lt)
                  ADDITIVE_METHODS ∅ catalog_names_distinct) e He).
Qed.

Lemma add_totals_lookup totals lt e :
  e ∈ ADDITIVE_METHODS →
  add_totals totals lt !! e.1
  = Some (default 0 (totals !! e.1) + method_value e lt).
Proof.
  intros He.
  apply (proj1 (assign_loop_lookup
                  (fun e o => default 0 o + method_value e lt)
                  ADDITIVE_METHODS totals catalog_names_distinct) e He).
Qed.

Lemma fold_totals_lookup lts totals e :
  e ∈ ADDITIVE_METHODS → is_Some (totals !! e.1) →
  foldl add_totals totals lts !! e.1
  = Some (default 0 (totals !! e.1) + sumZ (method_value e <$> lts)).
Proof.
  intros He. revert totals.
  induction lts as [|lt lts IH]; intros totals [x Hx]; cbn [foldl].
  - rewrite Hx. change (sumZ (method_value e <$> [])) with 0.
    cbn [default from_option id]. f_equal. lia.
  - rewrite IH by (rewrite add_totals_lookup; done).
    rewrite add_totals_lookup by done. rewrite Hx, fmap_cons.
    change (sumZ (method_value e lt :: (method_value e <$> lts)))
      with (method_value e lt + sumZ (method_value e <$> lts)).
    cbn [default from_option id]. f_equal. lia.
Qed.

Lemma zero_totals_lookup e :
  e ∈ ADDITIVE_METHODS → zero_totals !! e.1 = Some 0.
Proof.
  intros He.
  apply (proj1 (assign_loop_lookup (fun _ _ => 0)
                  ADDITIVE_METHODS ∅ catalog_names_distinct) e He).
Qed.

Section VerseFacts.
Variable isspace : N → bool.

Lemma verse_record_spec verse :
  verse_record isspace verse
  = Ok (VerseEntry verse (letters_only (remove_diacritics verse))
          (letters_only <$> tokenize isspace (remove_diacritics verse))
          (foldl add_totals zero_totals
                 (letters_only <$> tokenize isspace (remove_diacritics verse)))
          (token_record <$> tokenize isspace (remove_diacritics verse))).
Proof.
  unfold verse_record. cbv zeta.
  rewrite (tokens_loop_spec _ ([], zero_totals)) by reflexivity.
  cbn [mbind result_bind fst snd app]. f_equal. f_equal.
  rewrite <- list_fmap_compose. by apply list_fmap_ext.
Qed.

(** X20. The record of a verse keeps the verse as given, its letters, and
    one entry per token in order; a token entry holds, under each of the
    twenty method names, the value of that method on the token's letters,
    and [sum_of_tokens] holds under each name the sum of those values over
    the tokens. *)
Theorem verse_record_values (verse : list N) :
  ∃ e, verse_record isspace verse = Ok e ∧
       text e = verse ∧ text_letters e = letters_only verse ∧
       tokens e = letters_only <$> tokenize isspace (remove_diacritics verse) ∧
       t <$> token_values e = tokens e ∧
       Forall (fun m : string * method =>
                 Forall (fun te => ∃ n, call1 m.2 (t te) = Ok n ∧
                                        v te !! m.1 = Some n)
                        (token_values e) ∧
                 sum_of_tokens e !! m.1
                 = Some (sumZ ((fun te => default 0 (v te !! m.1))
                               <$> token_values e)))
              ADDITIVE_METHODS.
Proof.
  eexists. split; [apply verse_record_spec |].
  cbn [text text_letters tokens token_values sum_of_tokens].
  set (toks := tokenize isspace (remove_diacritics verse)).
  split; [done |]. split.
  { unfold letters_only, remove_diacritics. rewrite filter_filter_and.
    apply filter_pointwise. intros c.
    destruct (N.leb_spec 0x5D0 c), (N.leb_spec c 0x5EA),
      (N.leb_spec 0x591 c), (N.leb_spec c 0x5C7); cbn; try done; lia. }
  split; [done |]. split.
  { rewrite <- list_fmap_compose. by apply list_fmap_ext. }
  apply Forall_forall. intros m Hm. split.
  - apply Forall_fmap, Forall_forall. intros tok _.
    exists (method_value m (letters_only tok)). cbn [t v token_record].
    split; [by apply call1_value | by apply token_values_lookup].
  - rewrite fold_totals_lookup, zero_totals_lookup by
      (try done; rewrite zero_totals_lookup; done).
    cbn [default]. f_equal. rewrite Z.add_0_l. f_equal.
    rewrite <- !list_fmap_compose. apply list_fmap_ext. intros i tok _.
    unfold compose. cbn [v token_record].
    by rewrite token_values_lookup.
Qed.
End VerseFacts.

(** ** Totals of a verse against the verse as a whole *)

Lemma sumZ_cons x l : sumZ (x :: l) = x + sumZ l.
Proof. reflexivity. Qed.

Lemma strip_concat ls :
  _strip_non_hebrew (concat ls) = concat (_strip_non_hebrew <$> ls).
Proof. apply filter_concat. Qed.

Lemma method_value_concat e lts :
  e ∈ ADDITIVE_METHODS → e.1 ≠ "boneh"%string →
  sumZ (method_value e <$> lts) = method_value e (concat lts).
Proof.
  intros He Hne. pose proof letter_sum_form as Hform.
  rewrite Forall_forall in Hform. destruct (Hform e He Hne) as (f & Hf & _).
  assert (∀ s, method_value e s = sum_terms f (_strip_non_hebrew s)) as Hv
    by (intros s; unfold method_value; by rewrite Hf).
  induction lts as [|lt lts IH]; [by rewrite Hv |].
  rewrite fmap_cons, sumZ_cons, IH. cbn [concat].
  by rewrite !Hv, strip_app, sum_terms_app.
Qed.

Lemma boneh_concat_lower lts :
  sumZ (mispar_boneh <$> lts) ≤ mispar_boneh (concat lts).
Proof.
  induction lts as [|lt lts IH]; [done |].
  rewrite fmap_cons, sumZ_cons. cbn [concat]. rewrite boneh_app.
  pose proof (mispar_hechrachi_nonneg lt).
  pose proof (Nat2Z.is_nonneg (length (_strip_non_hebrew (concat lts)))).
  nia.
Qed.

Lemma boneh_in_catalog :
  ("boneh"%string, pure1 mispar_boneh) ∈ ADDITIVE_METHODS.
Proof.
  apply list_elem_of_In. unfold ADDITIVE_METHODS. cbn [In].
  repeat (first [left; reflexivity | right]).
Qed.

Lemma ascii_isspace_not_hebrew c : hebrew c → ascii_isspace c = false.
Proof.
  intros [Hlo _]. unfold ascii_isspace.
  destruct (N.leb_spec 9 c), (N.leb_spec c 13), (N.leb_spec 28 c),
    (N.leb_spec c 32); cbn; try done; lia.
Qed.

Section VerseTotals.
Variable isspace : N → bool.
Hypothesis space_not_letter : ∀ c, hebrew c → isspace c = false.

(** The letters of the tokens, joined, are the letters of the verse. *)
Lemma token_letters_concat verse :
  concat (letters_only <$> tokenize isspace (remove_diacritics verse))
  = letters_only (remove_diacritics verse).
Proof.
  unfold letters_only at 1. rewrite <- filter_concat.
  fold (letters_only (concat (tokenize isspace (remove_diacritics verse)))).
  rewrite tokenize_concat. unfold letters_only.
  rewrite filter_filter_and. apply filter_pointwise. intros c.
  destruct ((0x5D0 <=? c) && (c <=? 0x5EA))%N eqn:E;
    [| by rewrite andb_false_r].
  rewrite andb_true_r.
  assert (hebrew c) as Hc.
  { apply andb_prop in E as [H1%N.leb_le H2%N.leb_le]. done. }
  unfold is_sep. rewrite (space_not_letter c Hc). cbn [orb].
  destruct Hc as [Hlo Hhi]. unfold sof_pasuq.
  rewrite (proj2 (N.eqb_neq c 0x5BE)) by lia.
  rewrite (proj2 (N.eqb_neq c 0x5C3)) by lia.
  reflexivity.
Qed.

(** X21. When no Hebrew letter counts as whitespace, the letters of the
    tokens of a verse, joined, are the letters of the verse, and for every
    method but Boneh the [sum_of_tokens] entry is the value of the method on
    the letters of the whole verse.  For Boneh the entry is at most that
    value, each token starting a running total of its own. *)
Theorem verse_totals_match (verse : list N) :
  ∃ e, verse_record isspace verse = Ok e ∧
       concat (tokens e) = text_letters e ∧
       Forall (fun m : string * method =>
                 m.1 ≠ "boneh"%string →
                 ∃ n, call1 m.2 (text_letters e) = Ok n ∧
                      sum_of_tokens e !! m.1 = Some n)
              ADDITIVE_METHODS ∧
       ∃ n, sum_of_tokens e !! "boneh"%string = Some n ∧
            n ≤ mispar_boneh (text_letters e).
Proof.
  eexists. split; [apply verse_record_spec |].
  cbn [text_letters tokens sum_of_tokens].
  pose proof (token_letters_concat verse) as Hcat.
  split; [exact Hcat |]. split.
  - apply Forall_forall. intros m Hm Hne.
    exists (method_value m (letters_only (remove_diacritics verse))).
    split; [by apply call1_value |].
    rewrite fold_totals_lookup, zero_totals_lookup by
      (try done; rewrite zero_totals_lookup; done).
    cbn [default from_option id]. rewrite Z.add_0_l.
    by rewrite method_value_concat, Hcat.
  - pose proof boneh_in_catalog as Hb.
    pose proof (fold_totals_lookup
                  (letters_only <$> tokenize isspace (remove_diacritics verse))
                  zero_totals _ Hb) as Hl.
    pose proof (zero_totals_lookup _ Hb) as Hz. cbn [fst] in Hl, Hz.
    rewrite Hz in Hl.
    eexists. split; [apply Hl; by eexists |].
    cbn [default from_option id]. rewrite Z.add_0_l, <- Hcat.
    apply boneh_concat_lower.
Qed.
End VerseTotals.

Lemma verse_totals_match_witness :
  (∀ c, hebrew c → ascii_isspace c = false) ∧
  ∃ e, verse_record ascii_isspace
         ([bet; 0x5B0%N; resh] ++ [0x20%N; alef; final_kaf] ++ [sof_pasuq])
       = Ok e ∧
       concat (tokens e) = text_letters e ∧
       Forall (fun m : string * method =>
                 m.1 ≠ "boneh"%string →
                 ∃ n, call1 m.2 (text_letters e) = Ok n ∧
                      sum_of_tokens e !! m.1 = Some n)
              ADDITIVE_METHODS ∧
       ∃ n, sum_of_tokens e !! "boneh"%string = Some n ∧
            n ≤ mispar_boneh (text_letters e).
Proof.
  split; [exact ascii_isspace_not_hebrew |].
  exact (verse_totals_match ascii_isspace ascii_isspace_not_hebrew _).
Defined.

(** ** Which files a run reads, and the default title *)








Section RunFacts.
Variable isspace : N → bool.
Variable lower : list N → list N.

(** X23. A directory run reads only the entries whose lowered name ends in
    [.json]: it does what a run over those entries alone does, so a file
    with another name never raises, whatever it holds. *)
Theorem main_reads_json_names_only
    (input_dir out_dir : list N) (listing : list (list N * book)) (w : world) :
  main isspace lower (InputDir input_dir listing out_dir) w
  = main isspace lower
      (InputDir input_dir
                (List.filter (fun entry => is_json_name lower entry.1) listing)
                out_dir) w.
Proof.
  cbn [main]. revert w.
  induction listing as [|entry listing IH]; intros w; [done |].
  cbn [for_each List.filter].
  destruct (is_json_name lower entry.1) eqn:E.
  - cbn [for_each]. rewrite E. unfold mbind, io_bind.
    destruct (precompute_book isspace _ _ _ w) as [w1 [[]|e]]; [apply IH | done].
  - unfold mbind, io_bind, mret, io_ret. apply IH.
Qed.

End RunFacts.


(** ** The record of a chapter *)

Section ChapterFacts.
Variable isspace : N → bool.

Lemma verse_loop_spec verses k (d : gmap nat verse_entry) :
  ∃ r, foldl_result (verse_step isspace) d
                    (imap (fun i x => ((k + i)%nat, x)) verses) = Ok r ∧
       (∀ i verse, verses !! i = Some verse →
          ∃ e, verse_record isspace verse = Ok e ∧ r !! (k + i)%nat = Some e) ∧
       (∀ j, (j < k ∨ k + length verses ≤ j)%nat → r !! j = d !! j).
Proof.
  revert k d. induction verses as [|verse verses IH]; intros k d.
  - exists d. cbn [imap foldl_result]. split; [done |].
    split; [intros i x Hi; by rewrite lookup_nil in Hi | done].
  - rewrite imap_cons. cbn [foldl_result].
    rewrite (imap_ext _ (fun i x => ((S k + i)%nat, x)) verses)
      by (intros i x _; unfold compose; f_equal; lia).
    replace (k + 0)%nat with k by lia.
    destruct (verse_record_ok isspace verse) as [e He].
    assert (verse_step isspace d (k, verse) = Ok (<[k := e]> d)) as ->
      by (unfold verse_step; cbn [fst snd]; by rewrite He).
    cbn [mbind result_bind].
    destruct (IH (S k) (<[k := e]> d)) as (r & Hrun & Hnew & Hold).
    exists r. split; [exact Hrun |]. split.
    + intros [|i] x Hi.
      * cbn in Hi. injection Hi as <-. exists e. split; [exact He |].
        replace (k + 0)%nat with k by lia.
        rewrite Hold by lia. apply lookup_insert_eq.
      * cbn in Hi. destruct (Hnew i x Hi) as (e' & He' & Hr).
        exists e'. split; [exact He' |].
        replace (k + S i)%nat with (S k + i)%nat by lia. exact Hr.
    + intros j Hj. cbn [length] in Hj. rewrite Hold by lia.
      apply lookup_insert_ne. lia.
Qed.

(** X25. The record of a chapter never raises and holds one entry per
    verse, keyed by the verse number counted from 1: under i + 1 the record
    of the i-th verse, and nothing under 0 or beyond the number of verses. *)
Theorem chapter_record_keys (verses : list (list N)) :
  ∃ r, chapter_record isspace verses = Ok r ∧
       (∀ i verse, verses !! i = Some verse →
          ∃ e, verse_record isspace verse = Ok e ∧ r !! S i = Some e) ∧
       (∀ j, (j = 0 ∨ length verses < j)%nat → r !! j = None).
Proof.
  destruct (verse_loop_spec verses 1 ∅) as (r & Hrun & Hnew & Hold).
  exists r. split; [exact Hrun |]. split; [exact Hnew |].
  intros j Hj. rewrite Hold by lia. apply lookup_empty.
Qed.
End ChapterFacts.

(** ** What a book does when nothing fails *)







Section BookFacts.
Variable isspace : N → bool.
Variables dir ttl : list N.
Hypothesis ttl_ok : encodable ttl = true.


End BookFacts.

Section BookWrites.
Variable isspace : N → bool.

End BookWrites.

